(** * Fixed-point base converter: the exact (BigInt) conversion engine of
    [src/App.jsx], embedded as Rocq functions, and its specification.

    Conventions of the embedding.
    - A JavaScript [BigInt] is a [Z]; [/] and [%] on BigInt truncate toward
      zero ([Z.quot], [Z.rem]); [<<], [>>], [&], [^] are [Z.shiftl],
      [Z.shiftr], [Z.land], [Z.lxor] (two's complement of unbounded width on
      both sides).
    - The bit counts [m], [n], [totalBits] and the precision are JavaScript
      numbers holding integers; they are [Z] here.
    - A JavaScript string is a [string]; a character is the UTF-16 code unit
      of the same number, so the strings covered are those whose code units
      are below 256.
    - [null] is [None]; the result object of [parseInputToScaled] is the
      two-constructor type [ScaledResult]. *)

From Stdlib Require Import ZArith Lia Bool List Ascii String.
Import ListNotations.

Open Scope string_scope.
Open Scope Z_scope.

(** * JavaScript built-ins used by the engine *)

Module JS.

(** Code unit of a character ([charCodeAt]). *)
Definition charCode (c : ascii) : Z := Z.of_N (N_of_ascii c).

(** White space and line terminators removed by [String.prototype.trim],
    among the code units below 256: TAB, LF, VT, FF, CR, SP, NBSP. *)
Definition isWhiteSpace (c : ascii) : bool :=
  let k := charCode c in
  ((9 <=? k) && (k <=? 13)) || (k =? 32) || (k =? 160).

Fixpoint trimStart (s : string) : string :=
  match s with
  | String c s' => if isWhiteSpace c then trimStart s' else s
  | EmptyString => EmptyString
  end.

Fixpoint trimEnd (s : string) : string :=
  match s with
  | EmptyString => EmptyString
  | String c s' =>
      match trimEnd s' with
      | EmptyString => if isWhiteSpace c then EmptyString else String c EmptyString
      | r => String c r
      end
  end.

(** [s.trim()] *)
Definition trim (s : string) : string := trimEnd (trimStart s).

(** [s.slice(k)] for an index [k >= 0]. *)
Fixpoint sliceFrom (k : nat) (s : string) : string :=
  match k, s with
  | O, _ => s
  | S k', String _ s' => sliceFrom k' s'
  | S _, EmptyString => EmptyString
  end.

(** [s.slice(0, k)] for an index [k >= 0]. *)
Fixpoint sliceTo (k : nat) (s : string) : string :=
  match k, s with
  | S k', String c s' => String c (sliceTo k' s')
  | _, _ => EmptyString
  end.

(** [s.split(".")]: the pieces between the points; never an empty list. *)
Fixpoint splitDot (s : string) : list string :=
  match s with
  | EmptyString => [EmptyString]
  | String c s' =>
      if Ascii.eqb c "." then EmptyString :: splitDot s'
      else match splitDot s' with
           | p :: ps => String c p :: ps
           | [] => [String c EmptyString]
           end
  end.

Fixpoint repeatChar (c : ascii) (k : nat) : string :=
  match k with
  | O => EmptyString
  | S k' => String c (repeatChar c k')
  end.

(** [s.padStart(targetLength, c)] with a one-character filler. *)
Definition padStart (s : string) (targetLength : Z) (c : ascii) : string :=
  let len := Z.of_nat (String.length s) in
  if targetLength <=? len then s
  else repeatChar c (Z.to_nat (targetLength - len)) ++ s.

(** Digit character of a value below 36, lower case as [toString] emits. *)
Definition digitChar (d : Z) : ascii :=
  if d <? 10 then ascii_of_N (Z.to_N (48 + d)) else ascii_of_N (Z.to_N (87 + d)).

(** Digits of a non-negative [n] in radix [b], most significant first. *)
Fixpoint digitsOf (fuel : nat) (b n : Z) : string :=
  match fuel with
  | O => EmptyString
  | S f =>
      (if n / b =? 0 then EmptyString else digitsOf f b (n / b))
        ++ String (digitChar (n mod b)) EmptyString
  end.

(** [n.toString(radix)] on a BigInt. The fuel [log2 |n| + 1] is at least the
    number of digits in any radix from 2 to 36. *)
Definition toStringRadix (n radix : Z) : string :=
  let a := Z.abs n in
  let ds := digitsOf (S (Z.to_nat (Z.log2 a))) radix a in
  if n <? 0 then String "-" ds else ds.

(** [toUpperCase] on the characters [toString] can emit. *)
Definition upperChar (c : ascii) : ascii :=
  let k := charCode c in
  if (97 <=? k) && (k <=? 122) then ascii_of_N (Z.to_N (k - 32)) else c.

Fixpoint toUpperCase (s : string) : string :=
  match s with
  | EmptyString => EmptyString
  | String c s' => String (upperChar c) (toUpperCase s')
  end.

(** Value of a character as a digit, whatever the radix: [0-9], [a-z],
    [A-Z]. *)
Definition digitValue (c : ascii) : option Z :=
  let k := charCode c in
  if (48 <=? k) && (k <=? 57) then Some (k - 48)
  else if (97 <=? k) && (k <=? 122) then Some (k - 87)
  else if (65 <=? k) && (k <=? 90) then Some (k - 55)
  else None.

(** [parseInt(c, radix)] on a string of one character [c]. After white
    space and a sign are skipped nothing is left, so those give NaN
    ([None]); a one-character string has no room for a [0x] prefix. A radix
    of 0 stands for 10, any other radix outside 2..36 gives NaN. *)
Definition parseInt1 (c : ascii) (radix : Z) : option Z :=
  let r := if radix =? 0 then 10 else radix in
  if (r <? 2) || (36 <? r) then None
  else match digitValue c with
       | Some v => if v <? r then Some v else None
       | None => None
       end.

(** [Math.ceil(a / 4)] for an integer [a]. *)
Definition ceilDiv4 (a : Z) : Z := (a + 3) / 4.

End JS.

(** * The engine, function by function *)

(** [absBig] *)
Definition absBig (a : Z) : Z := if a <? 0 then - a else a.

(** [rmall(s, needle)]; every call passes the one-character needle ["_"],
    so the needle is a character. *)
Fixpoint rmall (s : string) (needle : ascii) : string :=
  match s with
  | EmptyString => EmptyString
  | String c s' =>
      if Ascii.eqb c needle then rmall s' needle else String c (rmall s' needle)
  end.

(** [bigintToBinary(n, width)] *)
Definition bigintToBinary (n width : Z) : string :=
  let mask := Z.shiftl 1 width - 1 in
  JS.padStart (JS.toStringRadix (Z.land n mask) 2) width "0".

(** The digit loop shared in shape by [parseFractionalInBase] (lines 28-32)
    and the integer-part loop of [parseInputToScaled] (lines 86-90):
    [None] as soon as a character is not a digit of the base. *)
Fixpoint accumulateDigits (s : string) (base acc : Z) : option Z :=
  match s with
  | EmptyString => Some acc
  | String c s' =>
      match JS.parseInt1 c base with
      | None => None
      | Some v =>
          if (v <? 0) || (base <=? v) then None
          else accumulateDigits s' base (acc * base + v)
      end
  end.

(** [parseFractionalInBase(strFrac, base)]: the pair is [(num, den)]. *)
Definition parseFractionalInBase (strFrac : string) (base : Z) : option (Z * Z) :=
  match strFrac with
  | EmptyString => Some (0, 1)
  | _ =>
      let k := Z.of_nat (String.length strFrac) in
      let den := base ^ k in
      match accumulateDigits strFrac base 0 with
      | None => None
      | Some num => Some (num, den)
      end
  end.

Record SignedDecimal := mkSignedDecimal
  { sd_sign : Z; sd_intPart : Z; sd_num : Z; sd_den : Z }.

(** The [while] loop of [parseSignedDecimal]: consumes decimal digits up to
    the first point or the end, and returns the integer part with what is
    left of [t] (that is [t.slice(i)]). *)
Fixpoint decimalIntLoop (t : string) (intPart : Z) : option (Z * string) :=
  match t with
  | EmptyString => Some (intPart, EmptyString)
  | String c t' =>
      if Ascii.eqb c "." then Some (intPart, t)
      else
        let code := JS.charCode c - 48 in
        if (code <? 0) || (9 <? code) then None
        else decimalIntLoop t' (intPart * 10 + code)
  end.

(** [parseSignedDecimal(str)] *)
Definition parseSignedDecimal (str : string) : option SignedDecimal :=
  let s := rmall (JS.trim str) "_" in
  match s with
  | EmptyString => None
  | String c0 rest =>
      let '(sign, t) :=
        if Ascii.eqb c0 "+" then (1, rest)
        else if Ascii.eqb c0 "-" then (-1, rest)
        else (1, s) in
      match decimalIntLoop t 0 with
      | None => None
      | Some (intPart, String c fracStr) =>
          if Ascii.eqb c "." then
            match parseFractionalInBase fracStr 10 with
            | None => None
            | Some (num, den) => Some (mkSignedDecimal sign intPart num den)
            end
          else Some (mkSignedDecimal sign intPart 0 1)
      | Some (intPart, EmptyString) => Some (mkSignedDecimal sign intPart 0 1)
      end
  end.

(** The result object of [parseInputToScaled]: [{ err }] or
    [{ scaled, overflow }]. *)
Inductive ScaledResult :=
| Err (err : string)
| Scaled (scaled : Z) (overflow : bool).

(** [totalBits], line 247 (and [N], line 62). *)
Definition totalBits (signed : bool) (m n : Z) : Z :=
  (if signed then 1 else 0) + m + n.

(** Lines 70-96 of [parseInputToScaled]: the text as an exact fraction,
    [(negative, rationalNum, rationalDen)], or the error message. *)
Definition parseRational (valueStr : string) (base : Z) : string + (bool * Z * Z) :=
  if base =? 10 then
    match parseSignedDecimal valueStr with
    | None => inl "Invalid decimal input."
    | Some p =>
        inr (sd_sign p <? 0, sd_intPart p * sd_den p + sd_num p, sd_den p)
    end
  else
    let s0 := rmall (JS.trim valueStr) "_" in
    let '(sign, s) :=
      match s0 with
      | String c rest =>
          if Ascii.eqb c "-" then (-1, rest)
          else if Ascii.eqb c "+" then (1, rest)
          else (1, s0)
      | EmptyString => (1, s0)
      end in
    match JS.splitDot s with
    | _ :: _ :: _ :: _ => inl "Too many decimal points."
    | parts =>
        let ip := nth 0 parts EmptyString in
        let fp := nth 1 parts EmptyString in
        match accumulateDigits ip base 0 with
        | None => inl "Invalid digit for base."
        | Some intVal =>
            match parseFractionalInBase fp base with
            | None => inl "Invalid fractional digits."
            | Some (num, den) => inr (sign <? 0, intVal * den + num, den)
            end
        end
    end.

(** Lines 98-102: [scaledAbs], the magnitude rounded half up. *)
Definition scaledAbsOf (rationalNum rationalDen fracBits : Z) : Z :=
  let scaledAbsTimesDen := rationalNum * Z.shiftl 1 fracBits in
  let scaledAbs := Z.quot scaledAbsTimesDen rationalDen in
  let rem := Z.rem scaledAbsTimesDen rationalDen in
  if rationalDen <=? rem * 2 then scaledAbs + 1 else scaledAbs.

(** Line 104: the candidate [scaled] before the range clamp. *)
Definition candidateScaled (negative : bool) (rationalNum rationalDen fracBits : Z) : Z :=
  let scaledAbs := scaledAbsOf rationalNum rationalDen fracBits in
  if negative then - scaledAbs else scaledAbs.

(** Lines 107-114: the representable range of the scaled integer. *)
Definition rangeMin (signed : bool) (N : Z) : Z :=
  if signed then - Z.shiftl 1 (N - 1) else 0.

Definition rangeMax (signed : bool) (N : Z) : Z :=
  if signed then Z.shiftl 1 (N - 1) - 1 else Z.shiftl 1 N - 1.

(** Lines 115-118: the range clamp. *)
Definition saturate (signed : bool) (N scaled : Z) : ScaledResult :=
  let min := rangeMin signed N in
  let max := rangeMax signed N in
  let overflow := (scaled <? min) || (max <? scaled) in
  Scaled (if overflow then (if scaled <? min then min else max) else scaled) overflow.

(** [parseInputToScaled({ valueStr, base, signed, intBits, fracBits })] *)
Definition parseInputToScaled
    (valueStr : string) (base : Z) (signed : bool) (intBits fracBits : Z)
  : ScaledResult :=
  let N := totalBits signed intBits fracBits in
  if (N <=? 0) || (intBits <? 0) || (fracBits <? 0) then Err "Invalid bit widths."
  else
    match parseRational valueStr base with
    | inl e => Err e
    | inr (negative, rationalNum, rationalDen) =>
        saturate signed N (candidateScaled negative rationalNum rationalDen fracBits)
    end.

(** The two's-complement representative [twos] of [scaled], computed the
    same way in [binaryWithPointFromScaled] (lines 124-128), [hexFromScaled]
    (139-143), [drawBitsCanvas] (190-192), [twosPattern] (262-264) and
    [handleCanvasEvent] (314-316). *)
Definition twosOf (signed : bool) (N scaled : Z) : Z :=
  let mask := Z.shiftl 1 N - 1 in
  if signed && (scaled <? 0) then Z.land (scaled + Z.shiftl 1 N) mask else scaled.

(** The raw bit pattern, most significant bit first: line 129 (and 193,
    265). *)
Definition toBits (signed : bool) (N scaled : Z) : string :=
  bigintToBinary (twosOf signed N scaled) N.

(** [binaryWithPointFromScaled(scaled, totalBits, fracBits, signed)] *)
Definition binaryWithPointFromScaled (scaled N F : Z) (signed : bool) : string :=
  let bits := toBits signed N scaled in
  if F <=? 0 then bits
  else
    let cut := Z.to_nat (Z.max 0 (Z.of_nat (String.length bits) - F)) in
    let intPart :=
      match JS.sliceTo cut bits with
      | EmptyString => "0"
      | ip => ip
      end in
    let fracPart := JS.sliceFrom cut bits in
    intPart ++ "." ++ fracPart.

(** [hexFromScaled(scaled, totalBits, signed)] *)
Definition hexFromScaled (scaled N : Z) (signed : bool) : string :=
  let twos := twosOf signed N scaled in
  JS.padStart (JS.toUpperCase (JS.toStringRadix twos 16)) (JS.ceilDiv4 N) "0".

(** [scaledToDecimalString(scaled, fracBits, precision)] *)
Definition scaledToDecimalString (scaled fracBits precision : Z) : string :=
  let sign := if scaled <? 0 then "-" else "" in
  let abs := absBig scaled in
  let intPart := Z.shiftr abs fracBits in
  let fracMask := Z.shiftl 1 fracBits - 1 in
  let frac := Z.land abs fracMask in
  if (precision <=? 0) || (fracBits =? 0) then sign ++ JS.toStringRadix intPart 10
  else
    let tenPow := 10 ^ precision in
    let fracDec :=
      Z.shiftr (frac * tenPow + Z.shiftl 1 (fracBits - 1)) fracBits in
    let fracStr := JS.padStart (JS.toStringRadix fracDec 10) precision "0" in
    sign ++ JS.toStringRadix intPart 10 ++ "." ++ fracStr.

(** The decoding of line 321: a pattern value back to the scaled integer.
    A BigInt is truthy when it is not [0n]. *)
Definition scaledFromTwos (signed : bool) (N twosNew : Z) : Z :=
  if signed && negb (Z.land twosNew (Z.shiftl 1 (N - 1)) =? 0)
  then twosNew - Z.shiftl 1 N
  else twosNew.

(** The click branch of [handleCanvasEvent] (lines 312-321): toggle bit
    [idx], index 0 being the most significant bit. *)
Definition toggleBit (signed : bool) (N scaled idx : Z) : Z :=
  let mask := Z.shiftl 1 N - 1 in
  let twos := twosOf signed N scaled in
  let bitMask := Z.shiftl 1 (N - 1 - idx) in
  let twosNew := Z.land (Z.lxor twos bitMask) mask in
  scaledFromTwos signed N twosNew.

(** The [.{4}] of the grouping regular expression: [.] matches any character
    but a line terminator (LF, CR among the code units below 256). *)
Definition isLineTerminator (c : ascii) : bool :=
  let k := JS.charCode c in (k =? 10) || (k =? 13).

(** [s.replace(/(.{4})/g, "$1 ")]: scanning from the left, each run of four
    characters matched by [.] is copied and followed by a space; where no
    match starts, one character is copied and the scan moves on. *)
Fixpoint replaceEvery4 (s : string) : string :=
  match s with
  | EmptyString => EmptyString
  | String a t =>
      match t with
      | String b (String c (String d rest)) =>
          if isLineTerminator a || isLineTerminator b
             || isLineTerminator c || isLineTerminator d
          then String a (replaceEvery4 t)
          else String a (String b (String c (String d (String " " (replaceEvery4 rest)))))
      | _ => s
      end
  end.

(** [twosPattern] (lines 259-267) when there is no parse error. *)
Definition twosPattern (scaled N : Z) (signed group4 : bool) : string :=
  let plain := toBits signed N scaled in
  if group4 then JS.trim (replaceEvery4 plain) else plain.

(** [\d] of the regular expression of [formatGrouped]. *)
Definition isDecimalDigit (c : ascii) : bool :=
  let k := JS.charCode c in (48 <=? k) && (k <=? 57).

(** [bits.replace(/^0+(?=\d)/, "")]: the longest run of leading zeros that
    is still followed by a decimal digit is removed. *)
Fixpoint stripLeadingZeros (s : string) : string :=
  match s with
  | String c s' =>
      if Ascii.eqb c "0" then
        match s' with
        | String d _ => if isDecimalDigit d then stripLeadingZeros s' else s
        | EmptyString => s
        end
      else s
  | EmptyString => EmptyString
  end.

(** The [while] loop of [formatGrouped] with [groupSize = 4], [sep = "_"]:
    [rest] is [s.slice(i)]. *)
Fixpoint groupLoop (fuel : nat) (rest out : string) : string :=
  match fuel with
  | O => out
  | S f =>
      match rest with
      | EmptyString => out
      | _ => groupLoop f (JS.sliceFrom 4 rest) (out ++ "_" ++ JS.sliceTo 4 rest)
      end
  end.

(** [formatGrouped(bits)] with its default [groupSize = 4] and [sep = "_"];
    no call site passes other values (the function has no call site). *)
Definition formatGrouped (bits : string) : string :=
  let s := stripLeadingZeros bits in
  match s with
  | EmptyString => "0"
  | _ =>
      let len := String.length s in
      if (len <=? 4)%nat then s
      else
        let i := match (len mod 4)%nat with O => 4%nat | r => r end in
        groupLoop len (JS.sliceFrom i s) (JS.sliceTo i s)
  end.

(** Lines 323-325 of [handleCanvasEvent]: the decimal text of the toggled
    value, written back into the input field after a click. *)
Definition clickValueStr (signed : bool) (N n precision scaled idx : Z) : string :=
  scaledToDecimalString (toggleBit signed N scaled idx) n (Z.max 12 precision).

(** * The second implementation: its functions on bit arrays

    The second [App] of the file (lines 473-799) parses and quantizes with
    floating-point numbers, which are not embedded. Its two text renderings
    work on the array of bits alone; a bit is a number 0 or 1, a [bool]
    here. *)

(** [s += b] for a bit [b]: the number 0 or 1 as text. *)
Definition bitChar (b : bool) : ascii := if b then "1"%char else "0"%char.

(** [(a << 3) | (b << 2) | (c << 1) | d] on bits. *)
Definition nibbleOf (a b c d : bool) : Z :=
  Z.lor (Z.lor (Z.lor (Z.shiftl (Z.b2z a) 3) (Z.shiftl (Z.b2z b) 2)) (Z.shiftl (Z.b2z c) 1))
        (Z.b2z d).

(** The loop of [bitsToHex] (lines 613-616), four elements at a time; an
    index past the end reads [undefined], which the shifts and [|] take
    as 0. *)
Fixpoint hexLoop (arr : list bool) : string :=
  match arr with
  | [] => EmptyString
  | a :: b :: c :: d :: rest =>
      JS.toUpperCase (JS.toStringRadix (nibbleOf a b c d) 16) ++ hexLoop rest
  | [a; b; c] => JS.toUpperCase (JS.toStringRadix (nibbleOf a b c false) 16)
  | [a; b] => JS.toUpperCase (JS.toStringRadix (nibbleOf a b false false) 16)
  | [a] => JS.toUpperCase (JS.toStringRadix (nibbleOf a false false false) 16)
  end.

(** [bitsToHex(bits)] (lines 609-619) *)
Definition bitsToHex (bits : list bool) : string :=
  let pad := ((4 - (List.length bits mod 4)) mod 4)%nat in
  let arr := (repeat false pad ++ bits)%list in
  JS.trim (replaceEvery4 (hexLoop arr)).

(** The callback of [bits.forEach] in [bitsToBinWithPoint] (lines 587-605),
    from index [i] on: what is appended to [s]. *)
Fixpoint binWithPointLoop
    (bits : list bool) (i m n : Z) (signed group4 : bool) : string :=
  match bits with
  | [] => EmptyString
  | b :: rest =>
      let dotIndex := if signed then m else m - 1 in
      let point := if (i =? dotIndex) && (0 <? n) then "." else "" in
      let pos := if signed then i - 1 else i in
      let isIntPart := pos <? m in
      let idxInPart := if isIntPart then pos else pos - m in
      let nextIsDot := i =? dotIndex in
      let separator :=
        if group4 && (0 <=? pos) && (pos <? m + n)
           && negb nextIsDot && ((idxInPart + 1) mod 4 =? 0)
           && negb (isIntPart && (0 <? n) && (i =? m - 1))
        then "_" else "" in
      String (bitChar b) (point ++ separator
                            ++ binWithPointLoop rest (i + 1) m n signed group4)
  end.

(** [bitsToBinWithPoint(bits, m, n, signed, group4)] (lines 584-607) *)
Definition bitsToBinWithPoint
    (bits : list bool) (m n : Z) (signed group4 : bool) : string :=
  binWithPointLoop bits 0 m n signed group4.

(** * Vocabulary of the statements

    Nothing below is code of the program: these definitions only name what
    the statements talk about. *)

(** The unsigned integer a pattern of ['0']/['1'] characters stands for,
    most significant bit first. The source never parses a pattern back; the
    statements use this reading to say what a pattern means. *)
Fixpoint bitsValueFrom (s : string) (acc : Z) : Z :=
  match s with
  | EmptyString => acc
  | String c s' => bitsValueFrom s' (2 * acc + (if Ascii.eqb c "1" then 1 else 0))
  end.

Definition bitsValue (s : string) : Z := bitsValueFrom s 0.

(** The string is made of ['0'] and ['1'] only. *)
Fixpoint bitsOnly (s : string) : bool :=
  match s with
  | EmptyString => true
  | String c s' => (Ascii.eqb c "0" || Ascii.eqb c "1") && bitsOnly s'
  end.

(** The first character of the pattern is ['1']. *)
Definition msbIsOne (s : string) : bool :=
  match s with
  | String c _ => Ascii.eqb c "1"
  | EmptyString => false
  end.

(** The representable range [[min, max]] of a format of [N] bits. *)
Definition inRange (signed : bool) (N x : Z) : Prop :=
  rangeMin signed N <= x <= rangeMax signed N.

(** The three input bases of the selector. *)
Definition supportedBase (base : Z) : Prop := base = 2 \/ base = 10 \/ base = 16.

(** A format that passes the width test of line 63. *)
Definition validFormat (signed : bool) (m n : Z) : Prop :=
  0 <= m /\ 0 <= n /\ 1 <= totalBits signed m n.

(** What is left of the input after [trim] and the removal of the
    separators. *)
Definition normalized (valueStr : string) : string := rmall (JS.trim valueStr) "_".

(** An optional leading sign followed by an optional radix point, not both
    absent: the inputs with a sign and/or a point and not a single digit. *)
Definition digitless (s : string) : Prop :=
  s = "+" \/ s = "-" \/ s = "." \/ s = "+." \/ s = "-.".

(** Number of digits standing before each separator of a grouped text. *)
Fixpoint separatorOffsets (sep : ascii) (s : string) (k : nat) : list nat :=
  match s with
  | EmptyString => []
  | String c s' =>
      if Ascii.eqb c sep then k :: separatorOffsets sep s' k
      else separatorOffsets sep s' (S k)
  end.

(** Grouping segment by segment, in the weakest reading: a separator with
    [k] digits before it stands strictly inside the integer segment (the
    first [intLen] digits) or strictly inside the fractional segment, at a
    multiple of four digits from the start or from the end of that
    segment. *)
Definition insideSegmentAtFour (intLen len k : nat) : bool :=
  ((0 <? k) && (k <? intLen)
     && ((k mod 4 =? 0) || ((intLen - k) mod 4 =? 0)))%nat
  || ((intLen <? k) && (k <? len)
     && (((k - intLen) mod 4 =? 0) || ((len - k) mod 4 =? 0)))%nat.

(** Every separator (space) of [out] is allowed by the segments. *)
Definition groupedBySegment (intLen len : nat) (out : string) : Prop :=
  forall k, In k (separatorOffsets " " out 0) -> insideSegmentAtFour intLen len k = true.

(** Grouping from the most significant bit, whatever the segments: a
    space after each complete group of four that is not the last. *)
Fixpoint groupFromMsb (s : string) : string :=
  match s with
  | String a (String b (String c (String d rest))) =>
      match rest with
      | EmptyString => s
      | _ => String a (String b (String c (String d (String " " (groupFromMsb rest)))))
      end
  | _ => s
  end.

(** Value of a character as a digit, 0 for a character that is none. *)
Definition digitOr0 (c : ascii) : Z :=
  match JS.digitValue c with
  | Some v => v
  | None => 0
  end.

(** The number a numeral in radix [b] stands for, most significant digit
    first. *)
Fixpoint radixValueFrom (b : Z) (s : string) (acc : Z) : Z :=
  match s with
  | EmptyString => acc
  | String c s' => radixValueFrom b s' (acc * b + digitOr0 c)
  end.

Definition radixValue (b : Z) (s : string) : Z := radixValueFrom b s 0.

(** The string is made of digits of radix [b] only. *)
Fixpoint digitsOnly (b : Z) (s : string) : bool :=
  match s with
  | EmptyString => true
  | String c s' =>
      match JS.digitValue c with
      | Some v => v <? b
      | None => false
      end && digitsOnly b s'
  end.

(** The characters of a pattern. *)
Definition isBit (c : ascii) : bool := Ascii.eqb c "0" || Ascii.eqb c "1".

(** The offsets [k + 4], [k + 8], ... of the separators of a pattern of
    [len] bits. *)
Definition everyFourth (k len : nat) : list nat :=
  map (fun j => (k + 4 * j)%nat) (seq 1 ((len - 1) / 4)).

(** The string is made of the digits [0-9] and [A-F] only. *)
Fixpoint upperHexOnly (s : string) : bool :=
  match s with
  | EmptyString => true
  | String c s' =>
      let k := JS.charCode c in
      (((48 <=? k) && (k <=? 57)) || ((65 <=? k) && (k <=? 70))) && upperHexOnly s'
  end.

(** A leading ['+'] or ['-']. *)
Definition isSignChar (c : ascii) : bool := Ascii.eqb c "+" || Ascii.eqb c "-".

(** The numeral without its leading sign, if it has one. *)
Definition unsignedPart (s : string) : string :=
  match s with
  | String c r => if isSignChar c then r else s
  | EmptyString => EmptyString
  end.

(** The numeral starts with ['-']. *)
Definition hasMinus (s : string) : bool :=
  match s with
  | String c _ => Ascii.eqb c "-"
  | EmptyString => false
  end.

(** The grammar of an unsigned numeral and its exact value: digits of the
    base, then optionally a point and digits of the base; either run of
    digits may be empty. The value is the fraction [(p, q)]: the integer
    digits and the [k] fractional digits read as one number, over
    [base^k]. *)
Definition expectedMagnitude (body : string) (base : Z) : option (Z * Z) :=
  let parts := JS.splitDot body in
  if (2 <? List.length parts)%nat then None
  else
    let ip := nth 0 parts EmptyString in
    let fp := nth 1 parts EmptyString in
    let k := Z.of_nat (String.length fp) in
    if digitsOnly base ip && digitsOnly base fp
    then Some (radixValue base ip * base ^ k + radixValue base fp, base ^ k)
    else None.

(** The grammar of the input: after normalization, an optional sign and an
    unsigned numeral. In base 10 the empty input is not a numeral. *)
Definition expectedRational (valueStr : string) (base : Z) : option (bool * Z * Z) :=
  let s := normalized valueStr in
  if (base =? 10) && (String.length s =? 0)%nat then None
  else
    match expectedMagnitude (unsignedPart s) base with
    | Some (p, q) => Some (hasMinus s, p, q)
    | None => None
    end.

(** No character of the string is white space or the separator ['_']. *)
Fixpoint plainOnly (s : string) : bool :=
  match s with
  | EmptyString => true
  | String c s' => negb (JS.isWhiteSpace c) && negb (Ascii.eqb c "_") && plainOnly s'
  end.

(** The numerator of a parsed value with its sign: the value is this over
    the denominator. *)
Definition signedNumerator (negative : bool) (p : Z) : Z :=
  if negative then - p else p.

(** The number an array of bits stands for, most significant bit first. *)
Fixpoint boolsValueFrom (bits : list bool) (acc : Z) : Z :=
  match bits with
  | [] => acc
  | b :: rest => boolsValueFrom rest (2 * acc + Z.b2z b)
  end.

Definition boolsValue (bits : list bool) : Z := boolsValueFrom bits 0.

(** The bits as text, one character each. *)
Fixpoint bitsText (bits : list bool) : string :=
  match bits with
  | [] => EmptyString
  | b :: rest => String (bitChar b) (bitsText rest)
  end.

(** * Properties *)

(** ** The self tests of the source and the scenarios, evaluated *)

Example selftest_3_parse :
  parseInputToScaled "-0.75" 10 true 1 3 = Scaled (-6) false.
Proof. reflexivity. Qed.

Example selftest_4_parse :
  parseInputToScaled "5" 10 false 4 0 = Scaled 5 false.
Proof. reflexivity. Qed.

Example parse_hex_fraction :
  parseInputToScaled " F_F.a " 16 false 8 4 = Scaled 4090 false.
Proof. reflexivity. Qed.

Example parse_two_points :
  parseInputToScaled "1.0.1" 2 false 8 4 = Err "Too many decimal points.".
Proof. reflexivity. Qed.

Example scenarioB_binary : binaryWithPointFromScaled 5 4 0 false = "0101".
Proof. reflexivity. Qed.

Example selftest_4_decimal : scaledToDecimalString 5 0 6 = "5".
Proof. reflexivity. Qed.

Example decimal_pi : scaledToDecimalString (-101) 5 6 = "-3.156250".
Proof. reflexivity. Qed.

Example selftest_1 : bigintToBinary 5 8 = "00000101".
Proof. reflexivity. Qed.

Example selftest_2 : toBits true 8 (-1) = "11111111".
Proof. reflexivity. Qed.

Example twosPattern_grouped : twosPattern 181 9 false true = "0101 1010 1".
Proof. reflexivity. Qed.

Example twosPattern_byte : twosPattern (-1) 8 true true = "1111 1111".
Proof. reflexivity. Qed.

Example formatGrouped_strips : formatGrouped "0001011010" = "101_1010".
Proof. reflexivity. Qed.

(** ** Integer lemmas: masks, the sign bit, one-bit exclusive or *)

Section BitArithmetic.

Variable N : Z.
Hypothesis N_pos : 1 <= N.

Lemma shiftl_1_pow2 (k : Z) : Z.shiftl 1 k = 2 ^ k.
Proof. apply Z.shiftl_1_l. Qed.

Lemma pow2_N_split : 2 ^ N = 2 * 2 ^ (N - 1).
Proof.
  replace N with (Z.succ (N - 1)) at 1 by lia.
  rewrite Z.pow_succ_r by lia. reflexivity.
Qed.

Lemma pow2_N_pos : 0 < 2 ^ (N - 1).
Proof. apply Z.pow_pos_nonneg; lia. Qed.

Lemma land_mask_mod (a : Z) : Z.land a (Z.shiftl 1 N - 1) = a mod 2 ^ N.
Proof.
  rewrite shiftl_1_pow2.
  replace (2 ^ N - 1) with (Z.ones N) by (rewrite Z.ones_equiv; lia).
  apply Z.land_ones. lia.
Qed.

Lemma land_mask_small (a : Z) : 0 <= a < 2 ^ N -> Z.land a (Z.shiftl 1 N - 1) = a.
Proof. intros H. rewrite land_mask_mod. apply Z.mod_small. exact H. Qed.

Lemma land_pow2 (u k : Z) :
  0 <= k -> Z.land u (2 ^ k) = if Z.testbit u k then 2 ^ k else 0.
Proof.
  intros Hk. apply Z.bits_inj'. intros i Hi.
  rewrite Z.land_spec, Z.pow2_bits_eqb by lia.
  destruct (Z.eqb_spec k i) as [->|Hne].
  - destruct (Z.testbit u i) eqn:E; simpl.
    + rewrite Z.pow2_bits_eqb, Z.eqb_refl by lia. reflexivity.
    + rewrite Z.testbit_0_l. reflexivity.
  - rewrite andb_false_r.
    destruct (Z.testbit u k).
    + rewrite Z.pow2_bits_eqb by lia.
      symmetry. apply Z.eqb_neq. exact Hne.
    + rewrite Z.testbit_0_l. reflexivity.
Qed.

Lemma testbit_top (u : Z) :
  0 <= u < 2 ^ N -> Z.testbit u (N - 1) = (2 ^ (N - 1) <=? u).
Proof.
  intros [Hlo Hhi].
  pose proof pow2_N_pos as Hp. pose proof pow2_N_split as Hs.
  assert (Hq : 0 <= u / 2 ^ (N - 1) < 2).
  { split.
    - apply Z.div_pos; lia.
    - apply Z.div_lt_upper_bound; lia. }
  destruct (Z.leb_spec (2 ^ (N - 1)) u) as [Hge|Hlt].
  - apply Z.testbit_true; [lia|].
    assert (1 <= u / 2 ^ (N - 1)).
    { apply Z.div_le_lower_bound; lia. }
    replace (u / 2 ^ (N - 1)) with 1 by lia. reflexivity.
  - apply Z.testbit_false; [lia|].
    rewrite Z.div_small by lia. reflexivity.
Qed.

Lemma sign_bit_test (u : Z) :
  0 <= u < 2 ^ N ->
  (Z.land u (Z.shiftl 1 (N - 1)) =? 0) = (u <? 2 ^ (N - 1)).
Proof.
  intros Hu. pose proof pow2_N_pos as Hp.
  rewrite shiftl_1_pow2, land_pow2 by lia.
  rewrite (testbit_top u Hu).
  destruct (Z.leb_spec (2 ^ (N - 1)) u) as [Hge|Hlt].
  - transitivity false.
    + apply Z.eqb_neq. lia.
    + symmetry. apply Z.ltb_ge. exact Hge.
  - transitivity true.
    + reflexivity.
    + symmetry. apply Z.ltb_lt. exact Hlt.
Qed.

Lemma lxor_bit_range (u k : Z) :
  0 <= u < 2 ^ N -> 0 <= k < N -> 0 <= Z.lxor u (2 ^ k) < 2 ^ N.
Proof.
  intros [Hlo Hhi] Hk.
  assert (Hpk : 0 < 2 ^ k) by (apply Z.pow_pos_nonneg; lia).
  assert (Hnn : 0 <= Z.lxor u (2 ^ k)) by (apply Z.lxor_nonneg; lia).
  split; [exact Hnn|].
  destruct (Z.eq_dec (Z.lxor u (2 ^ k)) 0) as [E|E].
  - rewrite E. apply Z.pow_pos_nonneg; lia.
  - apply Z.log2_lt_pow2; [lia|].
    eapply Z.le_lt_trans; [apply Z.log2_lxor; lia|].
    apply Z.max_lub_lt.
    + destruct (Z.eq_dec u 0) as [->|Hu]; [simpl; lia|].
      apply Z.log2_lt_pow2; lia.
    + rewrite Z.log2_pow2 by lia. lia.
Qed.

Lemma lxor_twice (u b : Z) : Z.lxor (Z.lxor u b) b = u.
Proof. rewrite Z.lxor_assoc, Z.lxor_nilpotent, Z.lxor_0_r. reflexivity. Qed.

End BitArithmetic.

(** ** The codec on integers: encode, decode, toggle *)

Section Codec.

Variable signed : bool.
Variable N : Z.
Hypothesis N_pos : 1 <= N.

Lemma twosOf_eq (scaled : Z) :
  inRange signed N scaled ->
  twosOf signed N scaled = if signed && (scaled <? 0) then scaled + 2 ^ N else scaled.
Proof.
  unfold inRange, rangeMin, rangeMax, twosOf. intros Hr.
  pose proof (pow2_N_split N N_pos) as Hs. pose proof (pow2_N_pos N N_pos) as Hp.
  destruct signed; cbn [andb negb]; [|reflexivity].
  rewrite !shiftl_1_pow2 in Hr.
  destruct (Z.ltb_spec scaled 0) as [Hneg|Hpos]; [|reflexivity].
  rewrite (land_mask_small N N_pos); rewrite shiftl_1_pow2; [reflexivity | lia].
Qed.

Lemma twosOf_range (scaled : Z) :
  inRange signed N scaled -> 0 <= twosOf signed N scaled < 2 ^ N.
Proof.
  intros Hr. rewrite (twosOf_eq scaled Hr).
  unfold inRange, rangeMin, rangeMax in Hr.
  pose proof (pow2_N_split N N_pos) as Hs. pose proof (pow2_N_pos N N_pos) as Hp.
  rewrite !shiftl_1_pow2 in Hr.
  destruct signed; cbn [andb negb] in *.
  - destruct (Z.ltb_spec scaled 0); lia.
  - lia.
Qed.

Lemma scaledFromTwos_eq (u : Z) :
  0 <= u < 2 ^ N ->
  scaledFromTwos signed N u = if signed && (2 ^ (N - 1) <=? u) then u - 2 ^ N else u.
Proof.
  intros Hu. unfold scaledFromTwos.
  rewrite (sign_bit_test N N_pos u Hu), shiftl_1_pow2.
  destruct signed; cbn [andb negb]; [|reflexivity].
  destruct (Z.ltb_spec u (2 ^ (N - 1))), (Z.leb_spec (2 ^ (N - 1)) u);
    cbn [negb]; try reflexivity; lia.
Qed.

Lemma scaledFromTwos_range (u : Z) :
  0 <= u < 2 ^ N -> inRange signed N (scaledFromTwos signed N u).
Proof.
  intros Hu. rewrite (scaledFromTwos_eq u Hu).
  unfold inRange, rangeMin, rangeMax. rewrite !shiftl_1_pow2.
  pose proof (pow2_N_split N N_pos) as Hs. pose proof (pow2_N_pos N N_pos) as Hp.
  destruct signed; cbn [andb negb].
  - destruct (Z.leb_spec (2 ^ (N - 1)) u); lia.
  - lia.
Qed.

Lemma decode_encode (scaled : Z) :
  inRange signed N scaled -> scaledFromTwos signed N (twosOf signed N scaled) = scaled.
Proof.
  intros Hr.
  rewrite (scaledFromTwos_eq _ (twosOf_range scaled Hr)), (twosOf_eq scaled Hr).
  unfold inRange, rangeMin, rangeMax in Hr. rewrite !shiftl_1_pow2 in Hr.
  pose proof (pow2_N_split N N_pos) as Hs. pose proof (pow2_N_pos N N_pos) as Hp.
  destruct signed; cbn [andb negb] in *; [|reflexivity].
  destruct (Z.ltb_spec scaled 0).
  - destruct (Z.leb_spec (2 ^ (N - 1)) (scaled + 2 ^ N)); lia.
  - destruct (Z.leb_spec (2 ^ (N - 1)) scaled); lia.
Qed.

Lemma encode_decode (u : Z) :
  0 <= u < 2 ^ N -> twosOf signed N (scaledFromTwos signed N u) = u.
Proof.
  intros Hu.
  rewrite (twosOf_eq _ (scaledFromTwos_range u Hu)), (scaledFromTwos_eq u Hu).
  pose proof (pow2_N_split N N_pos) as Hs. pose proof (pow2_N_pos N N_pos) as Hp.
  destruct signed; cbn [andb negb]; [|reflexivity].
  destruct (Z.leb_spec (2 ^ (N - 1)) u).
  - destruct (Z.ltb_spec (u - 2 ^ N) 0); lia.
  - destruct (Z.ltb_spec u 0); lia.
Qed.

(** The pattern value after the exclusive or of [toggleBit]; the final mask
    changes nothing. *)
Lemma toggled_twos (scaled idx : Z) :
  inRange signed N scaled -> 0 <= idx < N ->
  let t := Z.lxor (twosOf signed N scaled) (2 ^ (N - 1 - idx)) in
  0 <= t < 2 ^ N /\ toggleBit signed N scaled idx = scaledFromTwos signed N t.
Proof.
  intros Hr Hi t.
  assert (Ht : 0 <= t < 2 ^ N).
  { apply lxor_bit_range; [exact N_pos | apply twosOf_range; exact Hr | lia]. }
  split; [exact Ht|].
  unfold toggleBit. rewrite (shiftl_1_pow2 (N - 1 - idx)).
  fold t. rewrite (land_mask_small N N_pos t Ht). reflexivity.
Qed.

End Codec.

(** ** Bit-pattern strings: digits of [toString(2)], padding, reading *)

Lemma length_app (s1 s2 : string) :
  String.length (s1 ++ s2) = (String.length s1 + String.length s2)%nat.
Proof. induction s1 as [|c s1 IH]; simpl; [reflexivity | rewrite IH; reflexivity]. Qed.

Lemma length_repeatChar (c : ascii) (k : nat) : String.length (JS.repeatChar c k) = k.
Proof. induction k as [|k IH]; simpl; [reflexivity | rewrite IH; reflexivity]. Qed.

Lemma bitsValueFrom_app (s1 s2 : string) (acc : Z) :
  bitsValueFrom (s1 ++ s2) acc = bitsValueFrom s2 (bitsValueFrom s1 acc).
Proof.
  revert acc. induction s1 as [|c s1 IH]; intros acc; simpl; [reflexivity | apply IH].
Qed.

Lemma bitsValueFrom_shift (s : string) (acc : Z) :
  bitsValueFrom s acc = acc * 2 ^ Z.of_nat (String.length s) + bitsValueFrom s 0.
Proof.
  revert acc. induction s as [|c s IH]; intros acc.
  - simpl. lia.
  - cbn [bitsValueFrom String.length].
    rewrite IH, (IH (2 * 0 + _)), Nat2Z.inj_succ, Z.pow_succ_r by lia. ring.
Qed.

Lemma bitsValue_bounds (s : string) :
  0 <= bitsValue s < 2 ^ Z.of_nat (String.length s).
Proof.
  unfold bitsValue. induction s as [|c s IH].
  - simpl. lia.
  - cbn [bitsValueFrom String.length].
    rewrite bitsValueFrom_shift, Nat2Z.inj_succ, Z.pow_succ_r by lia.
    destruct (Ascii.eqb c "1"); lia.
Qed.

(** The first character of a pattern is ['1'] exactly when its value
    reaches half of the pattern space. *)
Lemma msbIsOne_value (s : string) :
  s <> EmptyString ->
  msbIsOne s = (2 ^ (Z.of_nat (String.length s) - 1) <=? bitsValue s).
Proof.
  destruct s as [|c s]; [congruence|]. intros _.
  unfold bitsValue. cbn [msbIsOne bitsValueFrom String.length].
  rewrite bitsValueFrom_shift, Nat2Z.inj_succ.
  replace (Z.succ (Z.of_nat (String.length s)) - 1) with (Z.of_nat (String.length s)) by lia.
  pose proof (bitsValue_bounds s) as Hb. unfold bitsValue in Hb.
  destruct (Ascii.eqb c "1").
  - symmetry. apply Z.leb_le. lia.
  - symmetry. apply Z.leb_gt. lia.
Qed.

Lemma bitsOnly_app (s1 s2 : string) :
  bitsOnly (s1 ++ s2) = bitsOnly s1 && bitsOnly s2.
Proof.
  induction s1 as [|c s1 IH]; simpl; [reflexivity|].
  rewrite IH, andb_assoc. reflexivity.
Qed.

Lemma bitsOnly_repeat_zero (k : nat) : bitsOnly (JS.repeatChar "0" k) = true.
Proof. induction k as [|k IH]; simpl; [reflexivity | exact IH]. Qed.

Lemma bitsValueFrom_repeat_zero (k : nat) : bitsValueFrom (JS.repeatChar "0" k) 0 = 0.
Proof. induction k as [|k IH]; simpl; [reflexivity | exact IH]. Qed.

Lemma digitChar_bit (n : Z) :
  0 <= n -> JS.digitChar (n mod 2) = if n mod 2 =? 1 then "1"%char else "0"%char.
Proof.
  intros Hn. pose proof (Z.mod_pos_bound n 2 ltac:(lia)) as Hm.
  assert (E : n mod 2 = 0 \/ n mod 2 = 1) by lia.
  destruct E as [-> | ->]; reflexivity.
Qed.

Lemma digitsOf2_spec (fuel : nat) :
  forall n, 0 <= n < 2 ^ Z.of_nat fuel ->
    let ds := JS.digitsOf fuel 2 n in
    bitsOnly ds = true /\ bitsValueFrom ds 0 = n.
Proof.
  induction fuel as [|f IH]; intros n Hn.
  - simpl in *. split; [reflexivity | lia].
  - cbn [JS.digitsOf]. cbv zeta.
    rewrite Nat2Z.inj_succ, Z.pow_succ_r in Hn by lia.
    pose proof (Z.div_mod n 2 ltac:(lia)) as Hdm.
    pose proof (Z.mod_pos_bound n 2 ltac:(lia)) as Hm.
    assert (Hq : 0 <= n / 2 < 2 ^ Z.of_nat f).
    { split; [apply Z.div_pos; lia | apply Z.div_lt_upper_bound; lia]. }
    rewrite bitsOnly_app, bitsValueFrom_app, digitChar_bit by lia.
    destruct (IH (n / 2) Hq) as [Hb Hv].
    assert (Hhead :
      let hd := if n / 2 =? 0 then EmptyString else JS.digitsOf f 2 (n / 2) in
      bitsOnly hd = true /\ bitsValueFrom hd 0 = n / 2).
    { cbv zeta. destruct (Z.eqb_spec (n / 2) 0) as [E|E].
      - simpl. split; [reflexivity | lia].
      - split; assumption. }
    cbv zeta in Hhead. destruct Hhead as [Hb' Hv']. rewrite Hb', Hv'.
    split.
    + destruct (n mod 2 =? 1); reflexivity.
    + destruct (Z.eqb_spec (n mod 2) 1) as [E|E];
        cbn -[Z.mul Z.add Z.div Z.modulo]; lia.
Qed.

Lemma digitsOf2_length (fuel : nat) :
  forall n W, 0 <= n < 2 ^ Z.of_nat W -> (1 <= W)%nat ->
    (1 <= String.length (JS.digitsOf (S fuel) 2 n) <= W)%nat.
Proof.
  induction fuel as [|f IH]; intros n W Hn HW.
  - cbn [JS.digitsOf]. rewrite length_app.
    destruct (n / 2 =? 0); simpl; lia.
  - change (JS.digitsOf (S (S f)) 2 n)
      with ((if n / 2 =? 0 then EmptyString else JS.digitsOf (S f) 2 (n / 2))
              ++ String (JS.digitChar (n mod 2)) EmptyString).
    rewrite length_app.
    destruct (Z.eqb_spec (n / 2) 0) as [E|E]; [simpl; lia|].
    destruct W as [|W]; [lia|].
    rewrite Nat2Z.inj_succ, Z.pow_succ_r in Hn by lia.
    assert (Hq : 0 <= n / 2 < 2 ^ Z.of_nat W).
    { split; [apply Z.div_pos; lia | apply Z.div_lt_upper_bound; lia]. }
    assert (HW' : (1 <= W)%nat).
    { destruct W; [|lia]. simpl in Hq. lia. }
    specialize (IH (n / 2) W Hq HW').
    change (String.length (String (JS.digitChar (n mod 2)) EmptyString)) with 1%nat.
    lia.
Qed.

Lemma log2_fuel (n : Z) : 0 <= n -> n < 2 ^ Z.of_nat (S (Z.to_nat (Z.log2 n))).
Proof.
  intros Hn. rewrite Nat2Z.inj_succ, Z2Nat.id by apply Z.log2_nonneg.
  destruct (Z.eq_dec n 0) as [->|Hne].
  - simpl. lia.
  - apply Z.log2_spec. lia.
Qed.

(** [toString(2)] of a value below [2^W]: at most [W] binary digits, which
    read back as the value. *)
Lemma toString2_spec (u : Z) (W : nat) :
  0 <= u < 2 ^ Z.of_nat W -> (1 <= W)%nat ->
  let ds := JS.toStringRadix u 2 in
  (1 <= String.length ds <= W)%nat /\ bitsOnly ds = true /\ bitsValue ds = u.
Proof.
  intros Hu HW. unfold JS.toStringRadix. cbv zeta.
  rewrite Z.abs_eq by lia.
  replace (u <? 0) with false by (symmetry; apply Z.ltb_ge; lia).
  split; [apply digitsOf2_length; assumption|].
  apply digitsOf2_spec. split; [lia | apply log2_fuel; lia].
Qed.

(** [bigintToBinary] yields exactly [width] bits whose reading is the value
    masked to [width] bits. *)
Lemma bigintToBinary_spec (x width : Z) :
  1 <= width ->
  let bits := bigintToBinary x width in
  Z.of_nat (String.length bits) = width
  /\ bitsOnly bits = true
  /\ bitsValue bits = x mod 2 ^ width.
Proof.
  intros Hw. unfold bigintToBinary. cbv zeta.
  rewrite (land_mask_mod width Hw).
  set (u := x mod 2 ^ width).
  assert (Hu : 0 <= u < 2 ^ Z.of_nat (Z.to_nat width)).
  { rewrite Z2Nat.id by lia. apply Z.mod_pos_bound. apply Z.pow_pos_nonneg; lia. }
  destruct (toString2_spec u (Z.to_nat width) Hu ltac:(lia)) as (Hlen & Hb & Hv).
  unfold JS.padStart.
  destruct (Z.leb_spec width (Z.of_nat (String.length (JS.toStringRadix u 2)))) as [Hle|Hgt].
  - repeat split; [lia | exact Hb | exact Hv].
  - unfold bitsValue in *.
    rewrite length_app, length_repeatChar, bitsOnly_app, bitsOnly_repeat_zero,
      bitsValueFrom_app, bitsValueFrom_repeat_zero, Hb, Hv.
    repeat split. lia.
Qed.

(** ** Encode / decode round trip *)

(** C1. For a width [N >= 1] and a scaled integer within the range of the
    format, the encoded pattern has exactly [N] characters, all ['0'] or
    ['1']; read most significant bit first it is [scaled + 2^N] for a
    negative [scaled] of a signed format and [scaled] otherwise; the decoder
    of the source subtracts [2^N] exactly when the format is signed and the
    first bit of the pattern is ['1']; and decoding the pattern gives
    [scaled] back. *)
Theorem bits_roundtrip (signed : bool) (N scaled : Z) :
  1 <= N ->
  rangeMin signed N <= scaled <= rangeMax signed N ->
  let bits := toBits signed N scaled in
  let u := bitsValue bits in
  Z.of_nat (String.length bits) = N
  /\ bitsOnly bits = true
  /\ u = (if signed && (scaled <? 0) then scaled + 2 ^ N else scaled)
  /\ scaledFromTwos signed N u = (if signed && msbIsOne bits then u - 2 ^ N else u)
  /\ scaledFromTwos signed N u = scaled.
Proof.
  intros HN Hr bits u.
  pose proof (twosOf_range signed N HN scaled Hr) as Ht.
  destruct (bigintToBinary_spec (twosOf signed N scaled) N HN) as (Hlen & Hb & Hv).
  fold (toBits signed N scaled) in Hlen, Hb, Hv. fold bits in Hlen, Hb, Hv.
  rewrite Z.mod_small in Hv by exact Ht. fold u in Hv.
  assert (Hne : bits <> EmptyString).
  { intros E. rewrite E in Hlen. simpl in Hlen. lia. }
  split; [exact Hlen|]. split; [exact Hb|].
  split; [rewrite Hv; apply twosOf_eq; assumption|].
  split.
  - rewrite (msbIsOne_value bits Hne), Hlen. fold u.
    apply scaledFromTwos_eq; [exact HN | rewrite Hv; exact Ht].
  - rewrite Hv. apply decode_encode; assumption.
Qed.

Lemma bits_roundtrip_witness :
  let bits := toBits true 5 (-6) in
  bits = "11010" /\ scaledFromTwos true 5 (bitsValue bits) = -6.
Proof.
  split; [reflexivity|].
  apply (bits_roundtrip true 5 (-6)); [lia | vm_compute; split; discriminate].
Defined.

(** ** Single-bit toggle *)

(** C7. Toggling the same bit of an in-range value twice gives the value
    back. *)
Theorem toggleBit_involutive (signed : bool) (N x idx : Z) :
  1 <= N ->
  rangeMin signed N <= x <= rangeMax signed N ->
  0 <= idx < N ->
  toggleBit signed N (toggleBit signed N x idx) idx = x.
Proof.
  intros HN Hr Hi.
  destruct (toggled_twos signed N HN x idx Hr Hi) as [Ht E1].
  set (t := Z.lxor (twosOf signed N x) (2 ^ (N - 1 - idx))) in *.
  pose proof (scaledFromTwos_range signed N HN t Ht) as Hr1.
  rewrite <- E1 in Hr1.
  destruct (toggled_twos signed N HN _ idx Hr1 Hi) as [_ E2].
  rewrite E2, E1, (encode_decode signed N HN t Ht).
  unfold t. rewrite lxor_twice. apply decode_encode; assumption.
Qed.

Lemma toggleBit_involutive_witness :
  toggleBit true 5 (toggleBit true 5 (-6) 0) 0 = -6.
Proof.
  apply (toggleBit_involutive true 5 (-6) 0); [lia | vm_compute; split; discriminate | lia].
Defined.

(** C8. The toggle is a total function (it has no failure case) and, on an
    in-range value and a bit index of the pattern, its result is in range
    with no clamp applied: the range clamp of the quantizer would leave it
    as it is and report no overflow. *)
Theorem toggleBit_in_range (signed : bool) (N x idx : Z) :
  1 <= N ->
  rangeMin signed N <= x <= rangeMax signed N ->
  0 <= idx < N ->
  rangeMin signed N <= toggleBit signed N x idx <= rangeMax signed N
  /\ saturate signed N (toggleBit signed N x idx)
     = Scaled (toggleBit signed N x idx) false.
Proof.
  intros HN Hr Hi.
  destruct (toggled_twos signed N HN x idx Hr Hi) as [Ht E1].
  pose proof (scaledFromTwos_range signed N HN _ Ht) as Hr1.
  rewrite <- E1 in Hr1. unfold inRange in Hr1.
  split; [exact Hr1|].
  unfold saturate.
  replace (toggleBit signed N x idx <? rangeMin signed N) with false
    by (symmetry; apply Z.ltb_ge; lia).
  replace (rangeMax signed N <? toggleBit signed N x idx) with false
    by (symmetry; apply Z.ltb_ge; lia).
  reflexivity.
Qed.

Lemma toggleBit_in_range_witness :
  toggleBit true 5 (-6) 0 = 10
  /\ rangeMin true 5 <= toggleBit true 5 (-6) 0 <= rangeMax true 5.
Proof.
  split; [reflexivity|].
  apply (toggleBit_in_range true 5 (-6) 0); [lia | vm_compute; split; discriminate | lia].
Defined.

(** ** The parser: what a successful parse returns *)

Lemma charCode_nonneg (c : ascii) : 0 <= JS.charCode c.
Proof. unfold JS.charCode. apply N2Z.is_nonneg. Qed.

Lemma digitValue_nonneg (c : ascii) (v : Z) : JS.digitValue c = Some v -> 0 <= v.
Proof.
  unfold JS.digitValue.
  destruct (Z.leb_spec 48 (JS.charCode c)), (Z.leb_spec (JS.charCode c) 57);
    cbn [andb]; try (intros [= <-]; lia);
  destruct (Z.leb_spec 97 (JS.charCode c)), (Z.leb_spec (JS.charCode c) 122);
    cbn [andb]; try (intros [= <-]; lia);
  destruct (Z.leb_spec 65 (JS.charCode c)), (Z.leb_spec (JS.charCode c) 90);
    cbn [andb]; try (intros [= <-]; lia); discriminate.
Qed.

Lemma parseInt1_nonneg (c : ascii) (radix v : Z) :
  JS.parseInt1 c radix = Some v -> 0 <= v.
Proof.
  unfold JS.parseInt1.
  destruct (_ || _); [discriminate|].
  destruct (JS.digitValue c) as [d|] eqn:E; [|discriminate].
  destruct (d <? _); [|discriminate].
  intros [= <-]. eapply digitValue_nonneg; eassumption.
Qed.

Lemma accumulateDigits_nonneg (s : string) (base : Z) :
  0 <= base ->
  forall acc v, 0 <= acc -> accumulateDigits s base acc = Some v -> 0 <= v.
Proof.
  intros Hb. induction s as [|c s IH]; intros acc v Hacc; simpl.
  - intros [= <-]. exact Hacc.
  - destruct (JS.parseInt1 c base) as [d|] eqn:E; [|discriminate].
    destruct (_ || _); [discriminate|].
    apply IH. pose proof (parseInt1_nonneg c base d E). nia.
Qed.

Lemma parseFractionalInBase_sound (strFrac : string) (base num den : Z) :
  0 < base ->
  parseFractionalInBase strFrac base = Some (num, den) ->
  0 <= num /\ 0 < den /\ den = base ^ Z.of_nat (String.length strFrac).
Proof.
  intros Hb. unfold parseFractionalInBase.
  remember (Z.of_nat (String.length strFrac)) as k eqn:Ek.
  assert (Hk : 0 <= k) by lia.
  destruct strFrac as [|c s].
  - intros [= <- <-]. subst k. simpl. lia.
  - clear Ek.
    destruct (accumulateDigits (String c s) base 0) as [v|] eqn:E; [|discriminate].
    intros [= <- <-].
    split; [eapply accumulateDigits_nonneg; [ | | exact E]; lia|].
    split; [apply Z.pow_pos_nonneg; lia | reflexivity].
Qed.

Lemma decimalIntLoop_nonneg (t : string) :
  forall acc ip rest, 0 <= acc -> decimalIntLoop t acc = Some (ip, rest) -> 0 <= ip.
Proof.
  induction t as [|c t IH]; intros acc ip rest Hacc; simpl.
  - intros [= <- _]. exact Hacc.
  - destruct (Ascii.eqb c "."); [intros [= <- _]; exact Hacc|].
    destruct (Z.ltb_spec (JS.charCode c - 48) 0); [discriminate|].
    destruct (Z.ltb_spec 9 (JS.charCode c - 48)); [discriminate|].
    cbn [orb]. apply IH. lia.
Qed.

Lemma parseSignedDecimal_sound (str : string) (p : SignedDecimal) :
  parseSignedDecimal str = Some p ->
  (sd_sign p = 1 \/ sd_sign p = -1)
  /\ 0 <= sd_intPart p /\ 0 <= sd_num p /\ 0 < sd_den p.
Proof.
  unfold parseSignedDecimal.
  destruct (rmall (JS.trim str) "_") as [|c0 rest]; [discriminate|].
  set (st := if Ascii.eqb c0 "+" then (1, rest)
             else if Ascii.eqb c0 "-" then (-1, rest) else (1, String c0 rest)).
  assert (Hs : fst st = 1 \/ fst st = -1).
  { unfold st. destruct (Ascii.eqb c0 "+"); [left; reflexivity|].
    destruct (Ascii.eqb c0 "-"); [right | left]; reflexivity. }
  destruct st as [sign t]. simpl in Hs.
  destruct (decimalIntLoop t 0) as [[ip r]|] eqn:E; [|discriminate].
  pose proof (decimalIntLoop_nonneg t 0 ip r ltac:(lia) E) as Hip.
  destruct r as [|c fracStr].
  - intros [= <-]. simpl. repeat split; try lia; exact Hs.
  - destruct (Ascii.eqb c ".").
    + destruct (parseFractionalInBase fracStr 10) as [[num den]|] eqn:F; [|discriminate].
      intros [= <-]. simpl.
      destruct (parseFractionalInBase_sound fracStr 10 num den ltac:(lia) F) as (? & ? & _).
      repeat split; try lia; exact Hs.
    + intros [= <-]. simpl. repeat split; try lia; exact Hs.
Qed.

(** A successful parse is a non-negative numerator over a positive
    denominator, with the sign kept apart. *)
Lemma parseRational_sound (valueStr : string) (base : Z) (neg : bool) (p q : Z) :
  supportedBase base ->
  parseRational valueStr base = inr (neg, p, q) ->
  0 <= p /\ 0 < q.
Proof.
  intros Hb. unfold parseRational.
  destruct (Z.eqb_spec base 10) as [->|Hne].
  - destruct (parseSignedDecimal valueStr) as [sd|] eqn:E; [|discriminate].
    intros [= _ <- <-].
    destruct (parseSignedDecimal_sound valueStr sd E) as (_ & ? & ? & ?).
    split; nia.
  - assert (Hpos : 0 < base) by (destruct Hb as [->|[->| ->]]; lia).
    destruct (match rmall (JS.trim valueStr) "_" with
              | EmptyString => _ | String c rest => _ end) as [sign s].
    destruct (JS.splitDot s) as [|a [|b [|c l]]]; try discriminate;
      cbn [nth];
      (destruct (accumulateDigits _ base 0) as [iv|] eqn:E; [|discriminate]);
      (destruct (parseFractionalInBase _ base) as [[num den]|] eqn:F; [|discriminate]);
      intros [= _ <- <-];
      pose proof (accumulateDigits_nonneg _ base ltac:(lia) 0 iv ltac:(lia) E);
      destruct (parseFractionalInBase_sound _ base num den Hpos F) as (? & ? & _);
      split; nia.
Qed.

(** ** The quantizer: rounding and saturation *)

Lemma validFormat_gate (signed : bool) (m n : Z) :
  validFormat signed m n ->
  (totalBits signed m n <=? 0) || (m <? 0) || (n <? 0) = false.
Proof.
  intros (Hm & Hn & HN).
  replace (totalBits signed m n <=? 0) with false by (symmetry; apply Z.leb_gt; lia).
  replace (m <? 0) with false by (symmetry; apply Z.ltb_ge; lia).
  replace (n <? 0) with false by (symmetry; apply Z.ltb_ge; lia).
  reflexivity.
Qed.

(** With a valid format, the result of [parseInputToScaled] on a parsed
    input is the range clamp of the rounded, signed candidate. *)
Lemma parseInputToScaled_parsed
    (valueStr : string) (base : Z) (signed : bool) (m n : Z) (neg : bool) (p q : Z) :
  validFormat signed m n ->
  parseRational valueStr base = inr (neg, p, q) ->
  parseInputToScaled valueStr base signed m n
  = saturate signed (totalBits signed m n) (candidateScaled neg p q n).
Proof.
  intros Hf Hp. unfold parseInputToScaled.
  rewrite (validFormat_gate signed m n Hf), Hp. reflexivity.
Qed.

Lemma scaledAbsOf_floor (p q n : Z) :
  0 <= p -> 0 < q -> 0 <= n ->
  scaledAbsOf p q n
  = (p * 2 ^ n) / q + (if q <=? 2 * ((p * 2 ^ n) mod q) then 1 else 0).
Proof.
  intros Hp Hq Hn. unfold scaledAbsOf. rewrite shiftl_1_pow2.
  assert (Hpow : 0 < 2 ^ n) by (apply Z.pow_pos_nonneg; lia).
  assert (Hnum : 0 <= p * 2 ^ n) by nia.
  rewrite Z.quot_div_nonneg, Z.rem_mod_nonneg by lia.
  rewrite (Z.mul_comm ((p * 2 ^ n) mod q) 2).
  destruct (q <=? 2 * ((p * 2 ^ n) mod q)); lia.
Qed.

(** The rounded magnitude is the integer nearest to [p * 2^n / q], the
    larger one on a tie. *)
Lemma scaledAbsOf_nearest (p q n : Z) :
  0 <= p -> 0 < q -> 0 <= n ->
  q * (2 * scaledAbsOf p q n - 1) <= 2 * (p * 2 ^ n) < q * (2 * scaledAbsOf p q n + 1).
Proof.
  intros Hp Hq Hn. rewrite scaledAbsOf_floor by assumption.
  assert (Hpow : 0 < 2 ^ n) by (apply Z.pow_pos_nonneg; lia).
  pose proof (Z.div_mod (p * 2 ^ n) q ltac:(lia)) as Hdm.
  pose proof (Z.mod_pos_bound (p * 2 ^ n) q Hq) as Hm.
  destruct (Z.leb_spec q (2 * ((p * 2 ^ n) mod q))); nia.
Qed.

Lemma range_order (signed : bool) (N : Z) :
  1 <= N -> rangeMin signed N <= 0 <= rangeMax signed N.
Proof.
  intros HN. unfold rangeMin, rangeMax. rewrite !shiftl_1_pow2.
  pose proof (pow2_N_pos N HN). pose proof (pow2_N_split N HN).
  destruct signed; lia.
Qed.

Lemma saturate_cases (signed : bool) (N c : Z) :
  1 <= N ->
  (rangeMax signed N < c -> saturate signed N c = Scaled (rangeMax signed N) true)
  /\ (c < rangeMin signed N -> saturate signed N c = Scaled (rangeMin signed N) true)
  /\ (rangeMin signed N <= c <= rangeMax signed N -> saturate signed N c = Scaled c false).
Proof.
  intros HN. pose proof (range_order signed N HN) as Ho. unfold saturate.
  destruct (Z.ltb_spec c (rangeMin signed N)), (Z.ltb_spec (rangeMax signed N) c);
    cbn [orb]; repeat split; intros; try reflexivity; lia.
Qed.

(** C2. Saturation. With a valid format and a supported base, an input that
    parses never gives an error: a candidate above [max] gives [max] with the
    overflow flag, one below [min] gives [min] with the flag, and one within
    the range is returned as it is without the flag. In the format
    signed, m = 0, n = 8 the input ["1.0"] in base 10 gives 255 with the
    flag. *)
Theorem quantize_saturates :
  (forall (valueStr : string) (base : Z) (signed : bool) (m n : Z)
          (neg : bool) (p q : Z),
      supportedBase base ->
      validFormat signed m n ->
      parseRational valueStr base = inr (neg, p, q) ->
      let N := totalBits signed m n in
      let cand := candidateScaled neg p q n in
      let result := parseInputToScaled valueStr base signed m n in
      (rangeMax signed N < cand -> result = Scaled (rangeMax signed N) true)
      /\ (cand < rangeMin signed N -> result = Scaled (rangeMin signed N) true)
      /\ (rangeMin signed N <= cand <= rangeMax signed N -> result = Scaled cand false)
      /\ (forall e, result <> Err e))
  /\ rangeMax true (totalBits true 0 8) = 255
  /\ parseInputToScaled "1.0" 10 true 0 8 = Scaled 255 true.
Proof.
  split; [|split; reflexivity].
  intros valueStr base signed m n neg p q _ Hf Hp N cand result.
  assert (E : result = saturate signed N cand)
    by (apply parseInputToScaled_parsed; assumption).
  destruct Hf as (_ & _ & HN).
  destruct (saturate_cases signed N cand HN) as (Hhi & Hlo & Hin).
  rewrite E. repeat split; try assumption.
  intros e. unfold saturate. discriminate.
Qed.

Lemma quantize_saturates_witness :
  parseRational "-9.5" 10 = inr (true, 95, 10)
  /\ parseInputToScaled "-9.5" 10 false 4 2 = Scaled (rangeMin false 6) true.
Proof.
  split; [reflexivity|].
  apply (proj1 quantize_saturates "-9.5" 10 false 4 2 true 95 10).
  - right; left; reflexivity.
  - unfold validFormat, totalBits; lia.
  - reflexivity.
  - vm_compute; reflexivity.
Defined.

(** C3. Rounding. For an input that parses to the magnitude [p/q] (with
    [0 <= p], [0 < q]) and [n] fractional bits, the magnitude before the
    clamp is [floor (p * 2^n / q)], plus one exactly when
    [2 * ((p * 2^n) mod q) >= q], which is the integer nearest to
    [p * 2^n / q] with a tie going to the larger one; the candidate is that
    magnitude with the sign of the input, and it is what the clamp
    receives. The input ["0.75"] with [n = 1] has magnitude 2. *)
Theorem quantize_rounds_half_up :
  (forall (valueStr : string) (base : Z) (signed : bool) (m n : Z)
          (neg : bool) (p q : Z),
      supportedBase base ->
      validFormat signed m n ->
      parseRational valueStr base = inr (neg, p, q) ->
      0 <= p /\ 0 < q
      /\ scaledAbsOf p q n
         = (p * 2 ^ n) / q + (if q <=? 2 * ((p * 2 ^ n) mod q) then 1 else 0)
      /\ q * (2 * scaledAbsOf p q n - 1) <= 2 * (p * 2 ^ n)
           < q * (2 * scaledAbsOf p q n + 1)
      /\ candidateScaled neg p q n
         = (if neg then - scaledAbsOf p q n else scaledAbsOf p q n)
      /\ parseInputToScaled valueStr base signed m n
         = saturate signed (totalBits signed m n) (candidateScaled neg p q n))
  /\ parseRational "0.75" 10 = inr (false, 75, 100)
  /\ scaledAbsOf 75 100 1 = 2
  /\ parseInputToScaled "0.75" 10 true 1 1 = Scaled 2 false.
Proof.
  split; [|repeat split; reflexivity].
  intros valueStr base signed m n neg p q Hb Hf Hp.
  destruct (parseRational_sound valueStr base neg p q Hb Hp) as [Hp0 Hq0].
  split; [exact Hp0|]. split; [exact Hq0|].
  split; [apply scaledAbsOf_floor; [assumption | assumption | apply Hf]|].
  split; [apply scaledAbsOf_nearest; [assumption | assumption | apply Hf]|].
  split; [reflexivity|].
  apply parseInputToScaled_parsed; assumption.
Qed.

Lemma quantize_rounds_half_up_witness :
  scaledAbsOf 25 10 0 = 25 * 2 ^ 0 / 10 + 1
  /\ candidateScaled true 25 10 0 = -3.
Proof.
  destruct (proj1 quantize_rounds_half_up "-2.5" 10 true 3 0 true 25 10)
    as (_ & _ & E & _ & _).
  - right; left; reflexivity.
  - unfold validFormat, totalBits; lia.
  - reflexivity.
  - split; [exact E | reflexivity].
Defined.

(** ** Inputs without digits *)

Lemma candidateScaled_zero (neg : bool) (n : Z) : candidateScaled neg 0 1 n = 0.
Proof. unfold candidateScaled, scaledAbsOf. destruct neg; reflexivity. Qed.

Lemma saturate_zero (signed : bool) (N : Z) :
  1 <= N -> saturate signed N 0 = Scaled 0 false.
Proof.
  intros HN. apply (saturate_cases signed N 0 HN). apply range_order. exact HN.
Qed.

Lemma zero_rational_converts
    (valueStr : string) (base : Z) (signed : bool) (m n : Z) (neg : bool) :
  validFormat signed m n ->
  parseRational valueStr base = inr (neg, 0, 1) ->
  parseInputToScaled valueStr base signed m n = Scaled 0 false.
Proof.
  intros Hf Hp.
  rewrite (parseInputToScaled_parsed valueStr base signed m n neg 0 1 Hf Hp).
  rewrite candidateScaled_zero. apply saturate_zero. apply Hf.
Qed.

(** In base 10 an input that is empty once normalized is rejected. *)
Lemma empty_input_base10_rejected (valueStr : string) (signed : bool) (m n : Z) :
  validFormat signed m n ->
  normalized valueStr = EmptyString ->
  parseInputToScaled valueStr 10 signed m n = Err "Invalid decimal input.".
Proof.
  intros Hf He. unfold parseInputToScaled.
  rewrite (validFormat_gate signed m n Hf).
  unfold parseRational, parseSignedDecimal. unfold normalized in He. rewrite He.
  reflexivity.
Qed.

(** In base 2 and in base 16 the same input is accepted as zero: the
    non-decimal branch has no test for the empty string. *)
Lemma empty_input_other_base_accepted
    (valueStr : string) (base : Z) (signed : bool) (m n : Z) :
  base = 2 \/ base = 16 ->
  validFormat signed m n ->
  normalized valueStr = EmptyString ->
  parseInputToScaled valueStr base signed m n = Scaled 0 false.
Proof.
  intros Hb Hf He.
  apply (zero_rational_converts valueStr base signed m n false Hf).
  unfold parseRational. unfold normalized in He. rewrite He.
  destruct Hb as [-> | ->]; reflexivity.
Qed.

(** C4, at the failing input. The empty string is rejected in base 10 but
    converts to the number zero, with no error, in base 2 and in base 16. *)
Theorem empty_input_accepted_outside_base10 :
  parseInputToScaled "" 10 true 3 5 = Err "Invalid decimal input."
  /\ parseInputToScaled "" 2 true 3 5 = Scaled 0 false
  /\ parseInputToScaled "" 16 true 3 5 = Scaled 0 false
  /\ parseInputToScaled "  _ " 2 true 3 5 = Scaled 0 false.
Proof. repeat split; reflexivity. Qed.

(** C10. In each of the bases 2, 10 and 16 and for a valid format, an input
    that is, once normalized, a sign and/or one radix point with no digit is
    accepted by the parser as the fraction 0/1 and converts to the scaled
    value 0 with no overflow. *)
Theorem digitless_input_is_zero
    (valueStr : string) (base : Z) (signed : bool) (m n : Z) :
  supportedBase base ->
  validFormat signed m n ->
  digitless (normalized valueStr) ->
  (exists neg, parseRational valueStr base = inr (neg, 0, 1))
  /\ parseInputToScaled valueStr base signed m n = Scaled 0 false.
Proof.
  intros Hb Hf Hd.
  assert (Hp : exists neg, parseRational valueStr base = inr (neg, 0, 1)).
  { unfold parseRational, parseSignedDecimal.
    unfold normalized in Hd.
    destruct Hb as [-> | [-> | ->]];
      destruct Hd as [E | [E | [E | [E | E]]]]; rewrite E;
      eexists; reflexivity. }
  split; [exact Hp|].
  destruct Hp as [neg Hp].
  apply (zero_rational_converts valueStr base signed m n neg Hf Hp).
Qed.

Lemma digitless_input_is_zero_witness :
  parseInputToScaled " -. " 16 true 3 5 = Scaled 0 false.
Proof.
  apply (digitless_input_is_zero " -. " 16 true 3 5).
  - right; right; reflexivity.
  - unfold validFormat, totalBits; lia.
  - right; right; right; right; reflexivity.
Defined.

(** A sign after the point is not a sign: the input is rejected. *)
Example point_then_sign_rejected :
  parseInputToScaled ".-" 10 true 3 5 = Err "Invalid decimal input."
  /\ parseInputToScaled ".-" 2 true 3 5 = Err "Invalid fractional digits.".
Proof. split; reflexivity. Qed.

(** ** Scenario A *)

(** C5, as the source behaves. In the format signed, m = 1, n = 3 (5 bits)
    the input ["-0.75"] in base 10 gives the scaled value -6 with no
    overflow, the pattern [11010], the hexadecimal text ["1A"], and the
    binary text with the point three places from the right, ["11.010"]. *)
Theorem scenario_A_outputs :
  totalBits true 1 3 = 5
  /\ parseInputToScaled "-0.75" 10 true 1 3 = Scaled (-6) false
  /\ toBits true 5 (-6) = "11010"
  /\ binaryWithPointFromScaled (-6) 5 3 true = "11.010"
  /\ hexFromScaled (-6) 5 true = "1A".
Proof. repeat split; reflexivity. Qed.

(** C5, as stated: the binary text of scenario A is not ["1.1010"]. *)
Lemma binary_text_of_scenario_A_differs :
  ~ (parseInputToScaled "-0.75" 10 true 1 3 = Scaled (-6) false
     /\ toBits true 5 (-6) = "11010"
     /\ binaryWithPointFromScaled (-6) 5 3 true = "1.1010"
     /\ hexFromScaled (-6) 5 true = "1A").
Proof. intros (_ & _ & H & _). vm_compute in H. discriminate H. Qed.

(** ** Numerals: what [toString(radix)] writes *)

Lemma digitValue_digitChar (d : Z) :
  0 <= d < 36 -> JS.digitValue (JS.digitChar d) = Some d.
Proof.
  intros Hd.
  assert (E : exists k : nat, d = Z.of_nat k /\ (k < 36)%nat).
  { exists (Z.to_nat d). split; lia. }
  destruct E as (k & -> & Hk).
  do 36 (destruct k as [|k]; [reflexivity|]). lia.
Qed.

Section Radix.

Variable b : Z.
Hypothesis radix_range : 2 <= b <= 36.

Lemma radixValueFrom_app (s1 s2 : string) (acc : Z) :
  radixValueFrom b (s1 ++ s2) acc = radixValueFrom b s2 (radixValueFrom b s1 acc).
Proof.
  revert acc. induction s1 as [|c s1 IH]; intros acc; simpl; [reflexivity | apply IH].
Qed.

Lemma digitsOnly_app (s1 s2 : string) :
  digitsOnly b (s1 ++ s2) = digitsOnly b s1 && digitsOnly b s2.
Proof.
  induction s1 as [|c s1 IH]; simpl; [reflexivity|].
  rewrite IH, andb_assoc. reflexivity.
Qed.

Lemma radixValueFrom_shift (s : string) (acc : Z) :
  radixValueFrom b s acc
  = acc * b ^ Z.of_nat (String.length s) + radixValueFrom b s 0.
Proof.
  revert acc. induction s as [|c s IH]; intros acc.
  - simpl. lia.
  - cbn [radixValueFrom String.length].
    rewrite IH, (IH (0 * b + _)), Nat2Z.inj_succ, Z.pow_succ_r by lia. ring.
Qed.

Lemma radixValue_bounds (s : string) :
  digitsOnly b s = true -> 0 <= radixValue b s < b ^ Z.of_nat (String.length s).
Proof.
  unfold radixValue. induction s as [|c s IH]; intros H.
  - simpl. lia.
  - cbn [digitsOnly] in H. apply andb_true_iff in H. destruct H as [Hc Hs].
    specialize (IH Hs).
    cbn [radixValueFrom String.length].
    rewrite radixValueFrom_shift, Nat2Z.inj_succ, Z.pow_succ_r by lia.
    unfold digitOr0.
    destruct (JS.digitValue c) as [v|] eqn:E; [|discriminate].
    apply Z.ltb_lt in Hc.
    pose proof (digitValue_nonneg c v E) as Hv.
    assert (Hpow : 0 < b ^ Z.of_nat (String.length s)) by (apply Z.pow_pos_nonneg; lia).
    nia.
Qed.

Lemma digit_last (x : Z) :
  0 <= x ->
  digitsOnly b (String (JS.digitChar (x mod b)) EmptyString) = true
  /\ digitOr0 (JS.digitChar (x mod b)) = x mod b.
Proof.
  intros Hx. pose proof (Z.mod_pos_bound x b ltac:(lia)) as Hm.
  unfold digitOr0. cbn [digitsOnly].
  rewrite digitValue_digitChar by lia.
  split; [|reflexivity].
  rewrite andb_true_r. apply Z.ltb_lt. lia.
Qed.

Lemma digitsOf_spec (fuel : nat) :
  forall x, 0 <= x < 2 ^ Z.of_nat fuel ->
    digitsOnly b (JS.digitsOf fuel b x) = true
    /\ radixValueFrom b (JS.digitsOf fuel b x) 0 = x.
Proof.
  induction fuel as [|f IH]; intros x Hx.
  - simpl in *. split; [reflexivity | lia].
  - cbn [JS.digitsOf].
    rewrite Nat2Z.inj_succ, Z.pow_succ_r in Hx by lia.
    pose proof (Z.div_mod x b ltac:(lia)) as Hdm.
    pose proof (Z.mod_pos_bound x b ltac:(lia)) as Hm.
    assert (Hpow : 0 < 2 ^ Z.of_nat f) by (apply Z.pow_pos_nonneg; lia).
    assert (Hq : 0 <= x / b < 2 ^ Z.of_nat f).
    { split; [apply Z.div_pos; lia|].
      apply Z.div_lt_upper_bound; [lia|]. nia. }
    destruct (digit_last x ltac:(lia)) as [Dc Dv].
    rewrite digitsOnly_app, radixValueFrom_app, Dc.
    cbn [radixValueFrom]. rewrite Dv.
    destruct (Z.eqb_spec (x / b) 0) as [E|E].
    + cbn [digitsOnly radixValueFrom]. split; [reflexivity | lia].
    + destruct (IH (x / b) Hq) as [Hb Hv]. rewrite Hb, Hv.
      split; [reflexivity | lia].
Qed.

Lemma digitsOf_length (fuel : nat) :
  forall x W, 0 <= x < b ^ Z.of_nat W -> (1 <= W)%nat ->
    (1 <= String.length (JS.digitsOf (S fuel) b x) <= W)%nat.
Proof.
  induction fuel as [|f IH]; intros x W Hx HW.
  - cbn [JS.digitsOf]. rewrite length_app.
    destruct (x / b =? 0); simpl; lia.
  - change (JS.digitsOf (S (S f)) b x)
      with ((if x / b =? 0 then EmptyString else JS.digitsOf (S f) b (x / b))
              ++ String (JS.digitChar (x mod b)) EmptyString).
    rewrite length_app.
    change (String.length (String (JS.digitChar (x mod b)) EmptyString)) with 1%nat.
    destruct (Z.eqb_spec (x / b) 0) as [E|E]; [simpl; lia|].
    destruct W as [|W]; [lia|].
    rewrite Nat2Z.inj_succ, Z.pow_succ_r in Hx by lia.
    assert (Hq : 0 <= x / b < b ^ Z.of_nat W).
    { split; [apply Z.div_pos; lia | apply Z.div_lt_upper_bound; lia]. }
    assert (HW' : (1 <= W)%nat).
    { destruct W; [|lia]. simpl in Hq. lia. }
    specialize (IH (x / b) W Hq HW'). lia.
Qed.

(** [toString(b)] of a non-negative integer: digits of the radix only,
    which read back as the integer; at most [W] of them below [b^W]. *)
Lemma toStringRadix_spec (x : Z) :
  0 <= x ->
  digitsOnly b (JS.toStringRadix x b) = true
  /\ radixValue b (JS.toStringRadix x b) = x
  /\ forall W, x < b ^ Z.of_nat W -> (1 <= W)%nat ->
       (1 <= String.length (JS.toStringRadix x b) <= W)%nat.
Proof.
  intros Hx. unfold JS.toStringRadix, radixValue.
  rewrite Z.abs_eq by lia.
  replace (x <? 0) with false by (symmetry; apply Z.ltb_ge; lia).
  destruct (digitsOf_spec (S (Z.to_nat (Z.log2 x))) x) as [Hd Hv].
  { split; [lia | apply log2_fuel; lia]. }
  split; [exact Hd|]. split; [exact Hv|].
  intros W HW H1. apply digitsOf_length; [lia | exact H1].
Qed.

Lemma digitsOnly_repeat_zero (k : nat) : digitsOnly b (JS.repeatChar "0" k) = true.
Proof.
  induction k as [|k IH]; [reflexivity|].
  cbn [JS.repeatChar digitsOnly]. rewrite IH.
  change (JS.digitValue "0") with (Some 0).
  rewrite andb_true_r. apply Z.ltb_lt. lia.
Qed.

Lemma radixValueFrom_repeat_zero (k : nat) :
  radixValueFrom b (JS.repeatChar "0" k) 0 = 0.
Proof. induction k as [|k IH]; [reflexivity | exact IH]. Qed.

End Radix.

(** ** Decimal text: the carry out of the fractional digits *)

Lemma absBig_abs (a : Z) : absBig a = Z.abs a.
Proof. unfold absBig. destruct (Z.ltb_spec a 0); lia. Qed.

Lemma half_unit_rounding (A D H : Z) :
  0 < H -> D = 2 * H -> 0 <= A ->
  let r := (A + H) / D in
  0 <= r /\ D * (2 * r - 1) <= 2 * A < D * (2 * r + 1).
Proof.
  intros HH HD HA r.
  pose proof (Z.div_mod (A + H) D ltac:(lia)) as Hdm.
  pose proof (Z.mod_pos_bound (A + H) D ltac:(lia)) as Hm.
  fold r in Hdm.
  assert (0 <= r) by (apply Z.div_pos; lia).
  split; [assumption | nia].
Qed.

(** The decimal text for [n >= 1] fractional bits and a precision
    [p >= 1]: sign, integer part, point and a fractional field that reads
    as the fraction times [10^p] rounded to the nearest integer (half up).
    The field has [p] digits unless that integer is [10^p] itself, in which
    case it has [p + 1]. *)
Lemma scaledToDecimalString_fraction (scaled n p : Z) :
  1 <= n -> 1 <= p ->
  let a := Z.abs scaled in
  let frac := a mod 2 ^ n in
  let fracDec := (frac * 10 ^ p + 2 ^ (n - 1)) / 2 ^ n in
  0 <= fracDec <= 10 ^ p
  /\ 2 ^ n * (2 * fracDec - 1) <= 2 * (frac * 10 ^ p) < 2 ^ n * (2 * fracDec + 1)
  /\ exists fracStr,
       scaledToDecimalString scaled n p
       = (if scaled <? 0 then "-" else "")
           ++ JS.toStringRadix (a / 2 ^ n) 10 ++ "." ++ fracStr
       /\ digitsOnly 10 fracStr = true
       /\ radixValue 10 fracStr = fracDec
       /\ Z.of_nat (String.length fracStr) = if fracDec <? 10 ^ p then p else p + 1.
Proof.
  intros Hn Hp a frac fracDec.
  assert (Hpow : 0 < 2 ^ n) by (apply Z.pow_pos_nonneg; lia).
  assert (Hten : 0 < 10 ^ p) by (apply Z.pow_pos_nonneg; lia).
  pose proof (pow2_N_pos n Hn) as Hhalf.
  pose proof (pow2_N_split n Hn) as Hsplit.
  pose proof (Z.mod_pos_bound a (2 ^ n) Hpow) as Hfrac. fold frac in Hfrac.
  assert (HA : 0 <= frac * 10 ^ p) by nia.
  destruct (half_unit_rounding (frac * 10 ^ p) (2 ^ n) (2 ^ (n - 1)) Hhalf Hsplit HA)
    as [Hnn Hnear].
  fold fracDec in Hnn, Hnear.
  assert (Hle : fracDec <= 10 ^ p).
  { assert (fracDec < 10 ^ p + 1); [|lia].
    apply Z.div_lt_upper_bound; [lia | nia]. }
  split; [lia|]. split; [exact Hnear|].
  exists (JS.padStart (JS.toStringRadix fracDec 10) p "0").
  split.
  - unfold scaledToDecimalString.
    replace (p <=? 0) with false by (symmetry; apply Z.leb_gt; lia).
    replace (n =? 0) with false by (symmetry; apply Z.eqb_neq; lia).
    cbn [orb].
    rewrite absBig_abs, (land_mask_mod n Hn), !Z.shiftr_div_pow2, shiftl_1_pow2 by lia.
    reflexivity.
  - destruct (toStringRadix_spec 10 ltac:(lia) fracDec Hnn) as (Hd & Hv & Hlen).
    set (ds := JS.toStringRadix fracDec 10) in *.
    pose proof (radixValue_bounds 10 ltac:(lia) ds Hd) as Hb. rewrite Hv in Hb.
    assert (HL : Z.of_nat (String.length ds) = (if fracDec <? 10 ^ p then Z.of_nat (String.length ds) else p + 1)
                 /\ ((fracDec <? 10 ^ p) = true -> Z.of_nat (String.length ds) <= p)).
    { destruct (Z.ltb_spec fracDec (10 ^ p)) as [Hlt|Hge].
      - split; [reflexivity|]. intros _.
        specialize (Hlen (Z.to_nat p)). rewrite Z2Nat.id in Hlen by lia.
        specialize (Hlen Hlt ltac:(lia)). lia.
      - split; [|discriminate].
        assert (E : fracDec = 10 ^ p) by lia.
        specialize (Hlen (Z.to_nat (p + 1))). rewrite Z2Nat.id in Hlen by lia.
        rewrite Z.pow_add_r, Z.pow_1_r in Hlen by lia.
        specialize (Hlen ltac:(lia) ltac:(lia)).
        assert (p < Z.of_nat (String.length ds)).
        { apply (Z.pow_lt_mono_r_iff 10); lia. }
        lia. }
    destruct HL as [HL1 HL2].
    unfold JS.padStart. fold ds.
    destruct (Z.leb_spec p (Z.of_nat (String.length ds))) as [Hfull|Hshort].
    + split; [exact Hd|]. split; [exact Hv|].
      destruct (fracDec <? 10 ^ p); [specialize (HL2 eq_refl); lia | exact HL1].
    + unfold radixValue in *.
      rewrite digitsOnly_app, radixValueFrom_app, length_app, length_repeatChar,
        digitsOnly_repeat_zero, radixValueFrom_repeat_zero by lia.
      split; [exact Hd|]. split; [exact Hv|].
      destruct (fracDec <? 10 ^ p); lia.
Qed.

(** C6, at the failing input. The value 31/32 = 0.96875 at precision 1 rounds
    to ten tenths; the ten is written into the fractional field, two digits
    wide, and the integer part is left at 0. The same happens at the
    precision 12 that the bit editor writes back with: 2^60 - 1 over 2^60
    comes out with thirteen fractional digits. One step lower, 30/32 has
    its single digit; at precision 0, or with no fractional bit, the point
    and the fraction are left out. *)
Theorem decimal_rounding_carry_lost :
  scaledToDecimalString 31 5 1 = "0.10"
  /\ scaledToDecimalString (-31) 5 1 = "-0.10"
  /\ scaledToDecimalString (2 ^ 60 - 1) 60 12 = "0.1000000000000"
  /\ scaledToDecimalString 30 5 1 = "0.9"
  /\ scaledToDecimalString 31 5 0 = "0"
  /\ scaledToDecimalString 31 0 6 = "31".
Proof. repeat split; vm_compute; reflexivity. Qed.

(** ** Grouping of the raw pattern *)

Section FourByFour.

Variable P : string -> Prop.
Hypothesis P0 : P EmptyString.
Hypothesis P1 : forall a, P (String a EmptyString).
Hypothesis P2 : forall a b, P (String a (String b EmptyString)).
Hypothesis P3 : forall a b c, P (String a (String b (String c EmptyString))).
Hypothesis P4 : forall a b c d rest,
  P rest -> P (String a (String b (String c (String d rest)))).

Lemma string_ind4 : forall s, P s.
Proof.
  fix IH 1. intros s.
  destruct s as [|a [|b [|c [|d rest]]]].
  - exact P0.
  - apply P1.
  - apply P2.
  - apply P3.
  - apply P4. apply IH.
Qed.

End FourByFour.

Lemma isBit_cases (c : ascii) : isBit c = true -> c = "0"%char \/ c = "1"%char.
Proof.
  unfold isBit. intros H. apply orb_true_iff in H.
  destruct H as [H|H]; apply Ascii.eqb_eq in H; auto.
Qed.

Lemma isBit_plain (c : ascii) :
  isBit c = true ->
  JS.isWhiteSpace c = false /\ isLineTerminator c = false /\ Ascii.eqb c " " = false.
Proof. intros H. destruct (isBit_cases c H) as [-> | ->]; repeat split; reflexivity. Qed.

Lemma bitsOnly_cons (c : ascii) (s : string) :
  bitsOnly (String c s) = true <-> isBit c = true /\ bitsOnly s = true.
Proof. cbn [bitsOnly]. fold (isBit c). apply andb_true_iff. Qed.

Lemma trimEnd_cons_plain (c : ascii) (s : string) :
  JS.isWhiteSpace c = false -> JS.trimEnd (String c s) = String c (JS.trimEnd s).
Proof. intros H. cbn [JS.trimEnd]. rewrite H. destruct (JS.trimEnd s); reflexivity. Qed.

Lemma trimEnd_bits (s : string) : bitsOnly s = true -> JS.trimEnd s = s.
Proof.
  induction s as [|c s IH]; [reflexivity|].
  intros H. apply bitsOnly_cons in H. destruct H as [Hc Hs].
  rewrite trimEnd_cons_plain by apply (isBit_plain c Hc).
  rewrite IH by exact Hs. reflexivity.
Qed.

Lemma trimStart_bits (s : string) : bitsOnly s = true -> JS.trimStart s = s.
Proof.
  destruct s as [|c s]; [reflexivity|].
  intros H. apply bitsOnly_cons in H. destruct H as [Hc _].
  cbn [JS.trimStart]. destruct (isBit_plain c Hc) as (-> & _). reflexivity.
Qed.

Lemma groupFromMsb_empty (s : string) : groupFromMsb s = EmptyString -> s = EmptyString.
Proof.
  destruct s as [|a [|b [|c [|d [|e r]]]]]; cbn [groupFromMsb]; congruence.
Qed.

Lemma groupFromMsb_step (a b c d e : ascii) (r : string) :
  groupFromMsb (String a (String b (String c (String d (String e r)))))
  = String a (String b (String c (String d (String " " (groupFromMsb (String e r)))))).
Proof. reflexivity. Qed.

Ltac split_bits H :=
  repeat match type of H with
         | bitsOnly (String _ _) = true =>
             let Hc := fresh "Hc" in
             apply bitsOnly_cons in H; destruct H as [Hc H]
         end.

Lemma replaceEvery4_head (c : ascii) (t : string) :
  exists r, replaceEvery4 (String c t) = String c r.
Proof.
  destruct t as [|b [|c' [|d rest]]]; cbn [replaceEvery4];
    try (eexists; reflexivity).
  destruct (_ || _); eexists; reflexivity.
Qed.

(** On a bit pattern, the regular-expression replacement followed by
    [trim] is the grouping from the most significant bit. *)
Lemma trim_replaceEvery4_bits (s : string) :
  bitsOnly s = true -> JS.trim (replaceEvery4 s) = groupFromMsb s.
Proof.
  unfold JS.trim.
  induction s as [| a | a b | a b c | a b c d rest IH] using string_ind4; intros H.
  - reflexivity.
  - cbn [replaceEvery4 groupFromMsb]. rewrite trimStart_bits, trimEnd_bits; auto.
  - cbn [replaceEvery4 groupFromMsb]. rewrite trimStart_bits, trimEnd_bits; auto.
  - cbn [replaceEvery4 groupFromMsb]. rewrite trimStart_bits, trimEnd_bits; auto.
  - split_bits H.
    destruct (isBit_plain a Hc) as (Wa & La & _).
    destruct (isBit_plain b Hc0) as (Wb & Lb & _).
    destruct (isBit_plain c Hc1) as (Wc & Lc & _).
    destruct (isBit_plain d Hc2) as (Wd & Ld & _).
    cbn [replaceEvery4]. rewrite La, Lb, Lc, Ld. cbn [orb].
    cbn [JS.trimStart]. rewrite Wa.
    rewrite !trimEnd_cons_plain by assumption.
    specialize (IH H).
    assert (Hstart : JS.trimStart (replaceEvery4 rest) = replaceEvery4 rest).
    { destruct rest as [|e r]; [reflexivity|].
      destruct (replaceEvery4_head e r) as [r' ->].
      apply bitsOnly_cons in H. destruct H as [He _].
      cbn [JS.trimStart]. destruct (isBit_plain e He) as (-> & _). reflexivity. }
    rewrite Hstart in IH.
    change (JS.trimEnd (String " " (replaceEvery4 rest)))
      with (match JS.trimEnd (replaceEvery4 rest) with
            | EmptyString => EmptyString
            | r => String " " r
            end).
    rewrite IH.
    destruct rest as [|e r]; [reflexivity|].
    rewrite groupFromMsb_step.
    destruct (groupFromMsb (String e r)) eqn:G.
    + apply groupFromMsb_empty in G. discriminate G.
    + reflexivity.
Qed.

Lemma rmall_bits (s : string) : bitsOnly s = true -> rmall s " " = s.
Proof.
  induction s as [|c s IH]; [reflexivity|].
  intros H. apply bitsOnly_cons in H. destruct H as [Hc Hs].
  cbn [rmall]. destruct (isBit_plain c Hc) as (_ & _ & ->).
  rewrite IH by exact Hs. reflexivity.
Qed.

Lemma rmall_groupFromMsb (s : string) :
  bitsOnly s = true -> rmall (groupFromMsb s) " " = s.
Proof.
  induction s as [| a | a b | a b c | a b c d rest IH] using string_ind4; intros H;
    try (cbn [groupFromMsb]; apply rmall_bits; exact H).
  pose proof H as Hall. split_bits H.
  destruct rest as [|e r]; [cbn [groupFromMsb]; apply rmall_bits; exact Hall|].
  rewrite groupFromMsb_step.
  destruct (isBit_plain a Hc) as (_ & _ & Sa).
  destruct (isBit_plain b Hc0) as (_ & _ & Sb).
  destruct (isBit_plain c Hc1) as (_ & _ & Sc).
  destruct (isBit_plain d Hc2) as (_ & _ & Sd).
  cbn [rmall]. rewrite Sa, Sb, Sc, Sd.
  change (Ascii.eqb " " " ") with true. cbv iota.
  rewrite (IH H). reflexivity.
Qed.

Lemma separatorOffsets_bits (s : string) (k : nat) :
  bitsOnly s = true -> separatorOffsets " " s k = [].
Proof.
  revert k. induction s as [|c s IH]; intros k H; [reflexivity|].
  apply bitsOnly_cons in H. destruct H as [Hc Hs].
  cbn [separatorOffsets]. destruct (isBit_plain c Hc) as (_ & _ & ->).
  apply IH. exact Hs.
Qed.

Lemma everyFourth_step (k len : nat) :
  (1 <= len)%nat ->
  everyFourth k (4 + len) = (k + 4)%nat :: everyFourth (k + 4) len.
Proof.
  intros Hlen. unfold everyFourth.
  replace (4 + len - 1)%nat with (1 * 4 + (len - 1))%nat by lia.
  rewrite Nat.div_add_l by lia.
  cbn [Nat.add seq map].
  replace (k + 4 * 1)%nat with (k + 4)%nat by lia.
  apply f_equal.
  rewrite <- seq_shift, map_map.
  apply map_ext. intros j. lia.
Qed.

Lemma separatorOffsets_groupFromMsb (s : string) :
  bitsOnly s = true ->
  forall k, separatorOffsets " " (groupFromMsb s) k = everyFourth k (String.length s).
Proof.
  induction s as [| a | a b | a b c | a b c d rest IH] using string_ind4; intros H k;
    try (cbn [groupFromMsb]; rewrite separatorOffsets_bits by exact H; reflexivity).
  pose proof H as Hall. split_bits H.
  destruct rest as [|e r].
  - cbn [groupFromMsb]. rewrite separatorOffsets_bits by exact Hall. reflexivity.
  - change (String.length (String a (String b (String c (String d (String e r))))))
      with (4 + String.length (String e r))%nat.
    rewrite everyFourth_step by (cbn [String.length]; lia).
    rewrite groupFromMsb_step.
    destruct (isBit_plain a Hc) as (_ & _ & Sa).
    destruct (isBit_plain b Hc0) as (_ & _ & Sb).
    destruct (isBit_plain c Hc1) as (_ & _ & Sc).
    destruct (isBit_plain d Hc2) as (_ & _ & Sd).
    cbn [separatorOffsets]. rewrite Sa, Sb, Sc, Sd.
    change (Ascii.eqb " " " ") with true. cbv iota.
    replace (S (S (S (S k)))) with (k + 4)%nat by lia.
    rewrite (IH H). reflexivity.
Qed.

(** C9, as the source behaves. With grouping on, the raw pattern is shown
    with its [N] bits unchanged and single spaces inserted after every four
    bits counted from the most significant bit of the whole pattern, none
    before the first bit and none after the last; the count does not start
    again where the fractional bits begin. With grouping off the pattern is
    shown as it is. *)
Theorem twosPattern_grouping (signed : bool) (N scaled : Z) :
  1 <= N ->
  let plain := toBits signed N scaled in
  let out := twosPattern scaled N signed true in
  Z.of_nat (String.length plain) = N
  /\ bitsOnly plain = true
  /\ rmall out " " = plain
  /\ separatorOffsets " " out 0 = everyFourth 0 (Z.to_nat N)
  /\ out = groupFromMsb plain
  /\ twosPattern scaled N signed false = plain.
Proof.
  intros HN plain out.
  destruct (bigintToBinary_spec (twosOf signed N scaled) N HN) as (Hlen & Hb & _).
  fold (toBits signed N scaled) in Hlen, Hb. fold plain in Hlen, Hb.
  assert (Hout : out = groupFromMsb plain).
  { unfold out, twosPattern. fold plain. apply trim_replaceEvery4_bits. exact Hb. }
  split; [exact Hlen|]. split; [exact Hb|].
  split; [rewrite Hout; apply rmall_groupFromMsb; exact Hb|].
  split; [|split; [exact Hout | reflexivity]].
  rewrite Hout, (separatorOffsets_groupFromMsb plain Hb 0).
  f_equal. lia.
Qed.

Lemma twosPattern_grouping_witness :
  twosPattern (-101) 9 true true = "1100 1101 1"
  /\ separatorOffsets " " (twosPattern (-101) 9 true true) 0 = [4; 8]%nat.
Proof.
  split; [reflexivity|].
  destruct (twosPattern_grouping true 9 (-101) ltac:(lia)) as (_ & _ & _ & E & _).
  rewrite E. reflexivity.
Defined.

(** C9, as stated. In the format signed, m = 1, n = 3 the integer segment
    has two bits and the fractional segment three, so grouping segment by
    segment has no place for a separator; the source puts one after the
    fourth bit of the pattern, between the second and the third fractional
    bit. *)
Lemma grouping_ignores_segments :
  twosPattern (-6) 5 true true = "1101 0"
  /\ ~ groupedBySegment 2 5 (twosPattern (-6) 5 true true).
Proof.
  split; [reflexivity|].
  intros H. specialize (H 4%nat (or_introl eq_refl)).
  vm_compute in H. discriminate H.
Qed.

(** * Further properties of the engine *)

(** ** What one toggle does to the value *)

Lemma lxor_pow2 (u k : Z) :
  0 <= k -> Z.lxor u (2 ^ k) = if Z.testbit u k then u - 2 ^ k else u + 2 ^ k.
Proof.
  intros Hk. destruct (Z.testbit u k) eqn:E.
  - set (v := Z.lxor u (2 ^ k)).
    assert (Hv : Z.testbit v k = false).
    { unfold v. rewrite Z.lxor_spec, E, Z.pow2_bits_true by lia. reflexivity. }
    assert (Hl : Z.land v (2 ^ k) = 0) by (rewrite land_pow2, Hv by lia; reflexivity).
    apply Z.add_nocarry_lxor in Hl. unfold v in Hl at 2. rewrite lxor_twice in Hl. lia.
  - assert (Hl : Z.land u (2 ^ k) = 0) by (rewrite land_pow2, E by lia; reflexivity).
    apply Z.add_nocarry_lxor in Hl. lia.
Qed.

Lemma toggleBit_twos (signed : bool) (N x idx : Z) :
  1 <= N -> inRange signed N x -> 0 <= idx < N ->
  inRange signed N (toggleBit signed N x idx)
  /\ twosOf signed N (toggleBit signed N x idx)
     = Z.lxor (twosOf signed N x) (2 ^ (N - 1 - idx)).
Proof.
  intros HN Hr Hi.
  destruct (toggled_twos signed N HN x idx Hr Hi) as [Ht E].
  rewrite E. split.
  - apply scaledFromTwos_range; assumption.
  - apply encode_decode; assumption.
Qed.

(** X1. A toggle moves the scaled value by exactly one power of two,
    [2^(N-1-idx)]: setting a bit adds it and clearing a bit subtracts it,
    except for the sign bit of a signed format, where setting subtracts and
    clearing adds. In particular a toggle never returns the value it was
    given. *)
Theorem toggleBit_delta (signed : bool) (N x idx : Z) :
  1 <= N ->
  rangeMin signed N <= x <= rangeMax signed N ->
  0 <= idx < N ->
  let k := N - 1 - idx in
  let wasSet := Z.testbit (twosOf signed N x) k in
  toggleBit signed N x idx
  = (if xorb wasSet (signed && (idx =? 0)) then x - 2 ^ k else x + 2 ^ k)
  /\ toggleBit signed N x idx <> x.
Proof.
  intros HN Hr Hi k wasSet.
  assert (Hk : 0 < 2 ^ k) by (apply Z.pow_pos_nonneg; lia).
  assert (E : toggleBit signed N x idx
              = if xorb wasSet (signed && (idx =? 0)) then x - 2 ^ k else x + 2 ^ k).
  { destruct (toggled_twos signed N HN x idx Hr Hi) as [Ht ->].
    fold k in Ht |- *.
    pose proof (twosOf_range signed N HN x Hr) as Hu.
    pose proof (twosOf_eq signed N HN x Hr) as Eu.
    pose proof (pow2_N_split N HN) as Hs. pose proof (pow2_N_pos N HN) as Hp.
    rewrite (scaledFromTwos_eq signed N HN _ Ht).
    pose proof (testbit_top N HN _ Ht) as Ttop.
    pose proof (testbit_top N HN _ Hu) as Utop.
    rewrite Z.lxor_spec in Ttop.
    assert (Et : Z.lxor (twosOf signed N x) (2 ^ k)
                 = if wasSet then twosOf signed N x - 2 ^ k else twosOf signed N x + 2 ^ k)
      by (apply lxor_pow2; lia).
    unfold inRange, rangeMin, rangeMax in Hr. rewrite !shiftl_1_pow2 in Hr.
    set (u := twosOf signed N x) in *.
    set (t := Z.lxor u (2 ^ k)) in *.
    destruct signed; cbn [andb] in *.
    - assert (Esign : (x <? 0) = (2 ^ (N - 1) <=? u)).
      { destruct (Z.ltb_spec x 0), (Z.leb_spec (2 ^ (N - 1)) u); try reflexivity; lia. }
      destruct (Z.eqb_spec idx 0) as [I0|I0].
      + assert (Ek : k = N - 1) by lia.
        assert (Ew : wasSet = (2 ^ (N - 1) <=? u)).
        { unfold wasSet. rewrite Ek. exact Utop. }
        rewrite Ek in *.
        destruct (Z.ltb_spec x 0), (Z.leb_spec (2 ^ (N - 1)) u); try discriminate;
          rewrite Ew in *; cbn [xorb];
          destruct (Z.leb_spec (2 ^ (N - 1)) t); lia.
      + assert (Etop : (2 ^ (N - 1) <=? t) = (2 ^ (N - 1) <=? u)).
        { rewrite <- Ttop, <- Utop, Z.pow2_bits_false, xorb_false_r by lia. reflexivity. }
        rewrite Etop, xorb_false_r.
        destruct (Z.ltb_spec x 0), (Z.leb_spec (2 ^ (N - 1)) u); try discriminate;
          destruct wasSet; lia.
    - rewrite xorb_false_r. destruct wasSet; lia. }
  split; [exact E|].
  rewrite E. destruct (xorb _ _); lia.
Qed.

Lemma toggleBit_delta_witness :
  toggleBit true 5 5 0 = 5 - 2 ^ 4 /\ toggleBit true 5 5 4 = 5 - 2 ^ 0.
Proof.
  split.
  - apply (toggleBit_delta true 5 5 0); [lia | vm_compute; split; discriminate | lia].
  - apply (toggleBit_delta true 5 5 4); [lia | vm_compute; split; discriminate | lia].
Defined.

(** X2. Toggles commute: two clicks, on the same or on different bits, give
    the same value in either order. *)
Theorem toggleBit_commute (signed : bool) (N x i j : Z) :
  1 <= N ->
  rangeMin signed N <= x <= rangeMax signed N ->
  0 <= i < N -> 0 <= j < N ->
  toggleBit signed N (toggleBit signed N x i) j
  = toggleBit signed N (toggleBit signed N x j) i.
Proof.
  intros HN Hr Hi Hj.
  destruct (toggleBit_twos signed N x i HN Hr Hi) as [Ri Ti].
  destruct (toggleBit_twos signed N x j HN Hr Hj) as [Rj Tj].
  destruct (toggled_twos signed N HN _ j Ri Hj) as [_ ->].
  destruct (toggled_twos signed N HN _ i Rj Hi) as [_ ->].
  rewrite Ti, Tj, !Z.lxor_assoc, (Z.lxor_comm (2 ^ (N - 1 - i))). reflexivity.
Qed.

Lemma toggleBit_commute_witness :
  toggleBit true 5 (toggleBit true 5 (-6) 0) 3 = toggleBit true 5 (toggleBit true 5 (-6) 3) 0.
Proof.
  apply (toggleBit_commute true 5 (-6) 0 3); [lia | vm_compute; split; discriminate | lia | lia].
Defined.

(** ** The three renderings of a pattern *)

(** X3. [bigintToBinary(x, width)] for a width of at least 1 is exactly
    [width] characters, all ['0'] or ['1'], and reads as [x] modulo
    [2^width], also for a negative [x] (two's complement wrap). For the
    width 0 it is the one character ["0"], not the empty string. *)
Theorem bigintToBinary_pattern (x width : Z) :
  (1 <= width ->
   Z.of_nat (String.length (bigintToBinary x width)) = width
   /\ bitsOnly (bigintToBinary x width) = true
   /\ bitsValue (bigintToBinary x width) = x mod 2 ^ width)
  /\ bigintToBinary x 0 = "0".
Proof.
  split.
  - intros Hw. exact (bigintToBinary_spec x width Hw).
  - unfold bigintToBinary.
    change (Z.shiftl 1 0 - 1) with 0. rewrite Z.land_0_r. reflexivity.
Qed.

Lemma bigintToBinary_pattern_witness :
  bigintToBinary (-3) 4 = "1101" /\ bitsValue (bigintToBinary (-3) 4) = (-3) mod 2 ^ 4.
Proof.
  split; [reflexivity|].
  apply (proj1 (bigintToBinary_pattern (-3) 4)). lia.
Defined.

Lemma upperChar_hex (c : ascii) (v : Z) :
  JS.digitValue c = Some v -> v < 16 ->
  JS.digitValue (JS.upperChar c) = Some v
  /\ upperHexOnly (String (JS.upperChar c) EmptyString) = true.
Proof.
  intros H Hv.
  destruct c as [[] [] [] [] [] [] [] []]; cbv in H; try discriminate H;
    injection H as <-; try (exfalso; lia); split; reflexivity.
Qed.

Lemma toUpperCase_hex (s : string) :
  digitsOnly 16 s = true ->
  digitsOnly 16 (JS.toUpperCase s) = true
  /\ upperHexOnly (JS.toUpperCase s) = true
  /\ String.length (JS.toUpperCase s) = String.length s
  /\ forall acc, radixValueFrom 16 (JS.toUpperCase s) acc = radixValueFrom 16 s acc.
Proof.
  induction s as [|c s IH]; intros H.
  - repeat split.
  - cbn [digitsOnly] in H. apply andb_true_iff in H. destruct H as [Hc Hs].
    destruct (JS.digitValue c) as [v|] eqn:E; [|discriminate].
    apply Z.ltb_lt in Hc.
    destruct (upperChar_hex c v E Hc) as [Ev Eu].
    destruct (IH Hs) as (I1 & I2 & I3 & I4).
    cbn [JS.toUpperCase digitsOnly upperHexOnly String.length radixValueFrom] in *.
    rewrite Ev, I1, I2, I3.
    rewrite andb_true_r in Eu. rewrite Eu.
    repeat split.
    + rewrite andb_true_r. apply Z.ltb_lt. exact Hc.
    + intros acc. unfold digitOr0. rewrite Ev, E. apply I4.
Qed.

Lemma upperHexOnly_app (s1 s2 : string) :
  upperHexOnly (s1 ++ s2) = upperHexOnly s1 && upperHexOnly s2.
Proof.
  induction s1 as [|c s1 IH]; [reflexivity|].
  cbn [append upperHexOnly]. rewrite IH, andb_assoc. reflexivity.
Qed.

Lemma upperHexOnly_repeat_zero (k : nat) : upperHexOnly (JS.repeatChar "0" k) = true.
Proof. induction k as [|k IH]; [reflexivity | exact IH]. Qed.

(** X4. For an in-range value the hexadecimal text has exactly
    [ceil(N / 4)] characters, all among [0-9A-F], and it reads in base 16 as
    the same number as the bit pattern reads in base 2. *)
Theorem hexFromScaled_pattern (signed : bool) (N scaled : Z) :
  1 <= N ->
  rangeMin signed N <= scaled <= rangeMax signed N ->
  let out := hexFromScaled scaled N signed in
  Z.of_nat (String.length out) = (N + 3) / 4
  /\ upperHexOnly out = true
  /\ radixValue 16 out = twosOf signed N scaled
  /\ radixValue 16 out = bitsValue (toBits signed N scaled).
Proof.
  intros HN Hr out.
  pose proof (twosOf_range signed N HN scaled Hr) as Hu.
  destruct (bigintToBinary_spec (twosOf signed N scaled) N HN) as (_ & _ & Hbits).
  rewrite Z.mod_small in Hbits by exact Hu.
  set (u := twosOf signed N scaled) in *.
  set (W := (N + 3) / 4).
  assert (HW : 1 <= W) by (unfold W; apply Z.div_le_lower_bound; lia).
  assert (H4 : N <= 4 * W).
  { unfold W. pose proof (Z.div_mod (N + 3) 4 ltac:(lia)).
    pose proof (Z.mod_pos_bound (N + 3) 4 ltac:(lia)). lia. }
  assert (Hpow : 2 ^ N <= 16 ^ W).
  { change 16 with (2 ^ 4). rewrite <- Z.pow_mul_r by lia.
    apply Z.pow_le_mono_r; lia. }
  destruct (toStringRadix_spec 16 ltac:(lia) u ltac:(lia)) as (Hd & Hv & Hlen).
  specialize (Hlen (Z.to_nat W)). rewrite Z2Nat.id in Hlen by lia.
  specialize (Hlen ltac:(lia) ltac:(lia)).
  destruct (toUpperCase_hex _ Hd) as (Ud & Uh & Ul & Uv).
  assert (core :
    Z.of_nat (String.length out) = W /\ upperHexOnly out = true /\ radixValue 16 out = u).
  { unfold out, hexFromScaled, JS.ceilDiv4. fold u W.
    unfold JS.padStart. rewrite Ul.
    destruct (Z.leb_spec W (Z.of_nat (String.length (JS.toStringRadix u 16)))) as [Hfull|Hshort].
    - rewrite Ul. split; [lia|]. split; [exact Uh|].
      unfold radixValue in *. rewrite Uv. exact Hv.
    - unfold radixValue in *.
      rewrite length_app, length_repeatChar, Ul, upperHexOnly_app,
        upperHexOnly_repeat_zero, Uh, radixValueFrom_app,
        radixValueFrom_repeat_zero, Uv.
      split; [lia|]. split; [reflexivity | exact Hv]. }
  destruct core as (C1 & C2 & C3).
  split; [exact C1|]. split; [exact C2|]. split; [exact C3|].
  rewrite C3. symmetry. exact Hbits.
Qed.

Lemma hexFromScaled_pattern_witness :
  hexFromScaled (-6) 5 true = "1A"
  /\ radixValue 16 (hexFromScaled (-6) 5 true) = bitsValue (toBits true 5 (-6)).
Proof.
  split; [reflexivity|].
  apply (hexFromScaled_pattern true 5 (-6)); [lia | vm_compute; split; discriminate].
Defined.

Lemma slice_app (k : nat) (s : string) : JS.sliceTo k s ++ JS.sliceFrom k s = s.
Proof.
  revert s. induction k as [|k IH]; intros s.
  - destruct s; reflexivity.
  - destruct s as [|c s]; [reflexivity|].
    cbn [JS.sliceTo JS.sliceFrom append]. rewrite IH. reflexivity.
Qed.

Lemma length_sliceFrom (k : nat) (s : string) :
  String.length (JS.sliceFrom k s) = (String.length s - k)%nat.
Proof.
  revert s. induction k as [|k IH]; intros s.
  - cbn [JS.sliceFrom]. lia.
  - destruct s as [|c s]; [reflexivity|].
    cbn [JS.sliceFrom String.length]. rewrite IH. lia.
Qed.

Lemma length_sliceTo (k : nat) (s : string) :
  String.length (JS.sliceTo k s) = Nat.min k (String.length s).
Proof.
  revert s. induction k as [|k IH]; intros s.
  - destruct s; reflexivity.
  - destruct s as [|c s]; [reflexivity|].
    cbn [JS.sliceTo String.length]. rewrite IH. lia.
Qed.

(** X5. The binary text with its point. Without fractional bits it is the
    raw pattern. With [1 <= F < N] it is the pattern with one point put in,
    exactly [F] digits from the right and at least one digit before it. With
    [F >= N] (an unsigned format without integer bits) the whole pattern
    stands after the point and a single ['0'] before it. *)
Theorem binaryWithPoint_layout (signed : bool) (N F scaled : Z) :
  1 <= N ->
  let bits := toBits signed N scaled in
  let out := binaryWithPointFromScaled scaled N F signed in
  (F <= 0 -> out = bits)
  /\ (1 <= F < N ->
      exists ip fp,
        out = ip ++ "." ++ fp /\ ip ++ fp = bits
        /\ Z.of_nat (String.length fp) = F /\ Z.of_nat (String.length ip) = N - F)
  /\ (N <= F -> out = "0." ++ bits).
Proof.
  intros HN bits out.
  destruct (bigintToBinary_spec (twosOf signed N scaled) N HN) as (Hlen & _ & _).
  fold (toBits signed N scaled) in Hlen. fold bits in Hlen.
  unfold out, binaryWithPointFromScaled. fold bits.
  split; [|split].
  - intros HF. replace (F <=? 0) with true by (symmetry; apply Z.leb_le; lia).
    reflexivity.
  - intros HF. replace (F <=? 0) with false by (symmetry; apply Z.leb_gt; lia).
    rewrite Hlen.
    set (cut := Z.to_nat (Z.max 0 (N - F))).
    assert (Hcut : Z.of_nat cut = N - F) by (unfold cut; lia).
    exists (JS.sliceTo cut bits), (JS.sliceFrom cut bits).
    assert (Lip : String.length (JS.sliceTo cut bits) = cut)
      by (rewrite length_sliceTo; lia).
    split.
    + destruct (JS.sliceTo cut bits) eqn:E; [|reflexivity].
      simpl in Lip. lia.
    + split; [apply slice_app|].
      split; [rewrite length_sliceFrom; lia | lia].
  - intros HF. replace (F <=? 0) with false by (symmetry; apply Z.leb_gt; lia).
    rewrite Hlen.
    replace (Z.to_nat (Z.max 0 (N - F))) with 0%nat by lia.
    destruct bits; reflexivity.
Qed.

Lemma binaryWithPoint_layout_witness :
  binaryWithPointFromScaled 5 4 4 false = "0." ++ toBits false 4 5.
Proof.
  apply (binaryWithPoint_layout false 4 4 5); lia.
Defined.

Lemma scaledToDecimalString_flat (scaled n p : Z) :
  0 <= n -> p <= 0 \/ n = 0 ->
  scaledToDecimalString scaled n p
  = (if scaled <? 0 then "-" else "") ++ JS.toStringRadix (Z.abs scaled / 2 ^ n) 10.
Proof.
  intros Hn Hcase. unfold scaledToDecimalString.
  replace ((p <=? 0) || (n =? 0)) with true.
  - rewrite absBig_abs, Z.shiftr_div_pow2 by lia. reflexivity.
  - symmetry. apply orb_true_iff.
    destruct Hcase as [H|H]; [left; apply Z.leb_le | right; apply Z.eqb_eq]; lia.
Qed.

(** X6. The decimal text. Its integer field is the decimal numeral of
    [|scaled| >> n], after a ['-'] for a negative value. With no fractional
    bit, or a precision of 0 or less, that is all: no point, no rounding of
    the dropped fraction. With [n >= 1] and [p >= 1] a point and a
    fractional field follow; the field reads as the fraction times [10^p]
    rounded to the nearest integer (half up) and has [p] digits unless that
    integer is [10^p], in which case it has [p + 1] digits and the integer
    field is not increased. *)
Theorem decimal_text_layout (scaled n p : Z) :
  0 <= n ->
  let a := Z.abs scaled in
  let sign := if scaled <? 0 then "-" else "" in
  let intStr := JS.toStringRadix (a / 2 ^ n) 10 in
  let frac := a mod 2 ^ n in
  let fracDec := (frac * 10 ^ p + 2 ^ (n - 1)) / 2 ^ n in
  digitsOnly 10 intStr = true
  /\ radixValue 10 intStr = a / 2 ^ n
  /\ (p <= 0 \/ n = 0 -> scaledToDecimalString scaled n p = sign ++ intStr)
  /\ (1 <= n -> 1 <= p ->
      2 ^ n * (2 * fracDec - 1) <= 2 * (frac * 10 ^ p) < 2 ^ n * (2 * fracDec + 1)
      /\ exists fracStr,
           scaledToDecimalString scaled n p = sign ++ intStr ++ "." ++ fracStr
           /\ digitsOnly 10 fracStr = true
           /\ radixValue 10 fracStr = fracDec
           /\ Z.of_nat (String.length fracStr) = if fracDec <? 10 ^ p then p else p + 1).
Proof.
  intros Hn a sign intStr frac fracDec.
  assert (Hpow : 0 < 2 ^ n) by (apply Z.pow_pos_nonneg; lia).
  assert (Hq : 0 <= a / 2 ^ n) by (apply Z.div_pos; unfold a; lia).
  destruct (toStringRadix_spec 10 ltac:(lia) (a / 2 ^ n) Hq) as (Hd & Hv & _).
  split; [exact Hd|]. split; [exact Hv|]. split.
  - intros Hcase. apply scaledToDecimalString_flat; assumption.
  - intros Hn1 Hp1.
    destruct (scaledToDecimalString_fraction scaled n p Hn1 Hp1) as (_ & Hnear & Hex).
    split; [exact Hnear | exact Hex].
Qed.

Lemma decimal_text_layout_witness :
  scaledToDecimalString (-101) 5 0 = "-" ++ JS.toStringRadix (101 / 2 ^ 5) 10.
Proof.
  apply (decimal_text_layout (-101) 5 0); lia.
Defined.

(** ** The grammar the parser accepts *)

Lemma parseInt1_digit (c : ascii) (base : Z) :
  2 <= base <= 36 ->
  JS.parseInt1 c base
  = match JS.digitValue c with
    | Some v => if v <? base then Some v else None
    | None => None
    end.
Proof.
  intros Hb. unfold JS.parseInt1.
  replace (base =? 0) with false by (symmetry; apply Z.eqb_neq; lia).
  replace (base <? 2) with false by (symmetry; apply Z.ltb_ge; lia).
  replace (36 <? base) with false by (symmetry; apply Z.ltb_ge; lia).
  reflexivity.
Qed.

Lemma accumulateDigits_spec (base : Z) (s : string) :
  2 <= base <= 36 ->
  forall acc,
    accumulateDigits s base acc
    = if digitsOnly base s then Some (radixValueFrom base s acc) else None.
Proof.
  intros Hb. induction s as [|c s IH]; intros acc; [reflexivity|].
  cbn [accumulateDigits digitsOnly radixValueFrom].
  rewrite parseInt1_digit by exact Hb. unfold digitOr0.
  destruct (JS.digitValue c) as [v|] eqn:E; [|reflexivity].
  pose proof (digitValue_nonneg c v E) as Hv.
  destruct (Z.ltb_spec v base) as [Hlt|Hge]; [|reflexivity].
  replace (v <? 0) with false by (symmetry; apply Z.ltb_ge; lia).
  replace (base <=? v) with false by (symmetry; apply Z.leb_gt; lia).
  cbn [orb andb]. apply IH.
Qed.

Lemma parseFractionalInBase_spec (base : Z) (s : string) :
  2 <= base <= 36 ->
  parseFractionalInBase s base
  = if digitsOnly base s
    then Some (radixValue base s, base ^ Z.of_nat (String.length s))
    else None.
Proof.
  intros Hb. unfold parseFractionalInBase.
  destruct s as [|c s]; [reflexivity|].
  rewrite (accumulateDigits_spec base _ Hb).
  destruct (digitsOnly base (String c s)); reflexivity.
Qed.

Lemma splitDot_nonempty (s : string) : JS.splitDot s <> [].
Proof.
  destruct s as [|c s]; cbn [JS.splitDot]; [discriminate|].
  destruct (Ascii.eqb c "."); [discriminate|].
  destruct (JS.splitDot s); discriminate.
Qed.

Lemma splitDot_single (s p : string) : JS.splitDot s = [p] -> s = p.
Proof.
  revert p. induction s as [|c s IH]; intros p; cbn [JS.splitDot].
  - intros [= <-]. reflexivity.
  - destruct (Ascii.eqb c ".").
    + intros [= _ H]. destruct (splitDot_nonempty s H).
    + destruct (JS.splitDot s) as [|q qs] eqn:E; [intros [= <-]|].
      * destruct (splitDot_nonempty s E).
      * intros [= <- ->]. rewrite (IH q eq_refl). reflexivity.
Qed.

Lemma splitDot_many (base : Z) (s a b : string) (l : list string) :
  JS.splitDot s = a :: b :: l -> digitsOnly base s = false.
Proof.
  revert a. induction s as [|c s IH]; intros a; cbn [JS.splitDot digitsOnly].
  - discriminate.
  - destruct (Ascii.eqb_spec c ".") as [->|Hne].
    + intros _. reflexivity.
    + destruct (JS.splitDot s) as [|q qs] eqn:E; [discriminate|].
      intros [= _ ->]. rewrite (IH q eq_refl). apply andb_false_r.
Qed.

Lemma decimalDigit_check (c : ascii) :
  let code := JS.charCode c - 48 in
  if (code <? 0) || (9 <? code)
  then match JS.digitValue c with Some v => v <? 10 | None => false end = false
  else JS.digitValue c = Some code.
Proof. destruct c as [[] [] [] [] [] [] [] []]; vm_compute; reflexivity. Qed.

(** The integer loop of the decimal path against [split(".")]: it reads the
    first piece and stops on the point before the second. *)
Lemma decimalIntLoop_splitDot (t : string) :
  forall acc,
    match JS.splitDot t with
    | [] => False
    | [ip] =>
        decimalIntLoop t acc
        = if digitsOnly 10 ip then Some (radixValueFrom 10 ip acc, EmptyString) else None
    | ip :: more =>
        if digitsOnly 10 ip
        then exists rest,
               decimalIntLoop t acc = Some (radixValueFrom 10 ip acc, String "." rest)
               /\ JS.splitDot rest = more
        else decimalIntLoop t acc = None
    end.
Proof.
  induction t as [|c t IH]; intros acc; [reflexivity|].
  cbn [JS.splitDot decimalIntLoop].
  destruct (Ascii.eqb_spec c ".") as [->|Hne].
  - destruct (JS.splitDot t) as [|q qs] eqn:E; [destruct (splitDot_nonempty t E)|].
    cbn [digitsOnly radixValueFrom]. exists t. split; [reflexivity | exact E].
  - pose proof (decimalDigit_check c) as Hc. cbv zeta in Hc.
    specialize (IH (acc * 10 + (JS.charCode c - 48))).
    assert (Hlt : JS.digitValue c = Some (JS.charCode c - 48) ->
                  (JS.charCode c - 48 <? 10) = true).
    { intros Hd. apply Z.ltb_lt.
      unfold JS.digitValue in Hd.
      destruct ((48 <=? JS.charCode c) && (JS.charCode c <=? 57)) eqn:D.
      - apply andb_true_iff in D. destruct D as [_ D]. apply Z.leb_le in D. lia.
      - destruct ((97 <=? JS.charCode c) && (JS.charCode c <=? 122));
          [injection Hd; lia|].
        destruct ((65 <=? JS.charCode c) && (JS.charCode c <=? 90));
          [injection Hd; lia | discriminate]. }
    destruct (JS.splitDot t) as [|q qs] eqn:E; [destruct IH|].
    destruct qs as [|r rs]; cbn [digitsOnly radixValueFrom]; unfold digitOr0;
      destruct ((JS.charCode c - 48 <? 0) || (9 <? JS.charCode c - 48));
      try (rewrite Hc; reflexivity);
      rewrite Hc, (Hlt Hc); cbn [andb]; exact IH.
Qed.

Lemma sign_strip_decimal (c0 : ascii) (rest : string) :
  exists sign,
    (if Ascii.eqb c0 "+" then (1, rest)
     else if Ascii.eqb c0 "-" then (-1, rest) else (1, String c0 rest))
    = (sign, unsignedPart (String c0 rest))
    /\ (sign <? 0) = hasMinus (String c0 rest).
Proof.
  unfold unsignedPart, hasMinus, isSignChar.
  destruct (Ascii.eqb_spec c0 "+") as [->|H1].
  - exists 1. split; reflexivity.
  - destruct (Ascii.eqb c0 "-"); [exists (-1) | exists 1]; split; reflexivity.
Qed.

Lemma sign_strip_generic (s0 : string) :
  exists sign,
    match s0 with
    | String c rest =>
        if Ascii.eqb c "-" then (-1, rest)
        else if Ascii.eqb c "+" then (1, rest) else (1, s0)
    | EmptyString => (1, s0)
    end = (sign, unsignedPart s0)
    /\ (sign <? 0) = hasMinus s0.
Proof.
  unfold unsignedPart, hasMinus, isSignChar.
  destruct s0 as [|c rest]; [exists 1; split; reflexivity|].
  destruct (Ascii.eqb_spec c "-") as [->|H1].
  - exists (-1). split; reflexivity.
  - destruct (Ascii.eqb c "+"); exists 1; split; reflexivity.
Qed.

(** The decimal path, [parseSignedDecimal], against the grammar. *)
Lemma parseSignedDecimal_grammar (str : string) :
  match normalized str with
  | EmptyString => parseSignedDecimal str = None
  | s =>
      match expectedMagnitude (unsignedPart s) 10 with
      | Some (p, q) =>
          exists sd, parseSignedDecimal str = Some sd
                     /\ (sd_sign sd <? 0) = hasMinus s
                     /\ sd_intPart sd * sd_den sd + sd_num sd = p
                     /\ sd_den sd = q
      | None => parseSignedDecimal str = None
      end
  end.
Proof.
  unfold parseSignedDecimal, normalized.
  destruct (rmall (JS.trim str) "_") as [|c0 rest]; [reflexivity|].
  destruct (sign_strip_decimal c0 rest) as (sign & -> & Hsign).
  set (s := String c0 rest) in *. set (t := unsignedPart s).
  cbv beta iota.
  pose proof (decimalIntLoop_splitDot t 0) as HL.
  unfold expectedMagnitude.
  destruct (JS.splitDot t) as [|ip [|fp [|x more]]].
  - destruct HL.
  - rewrite HL. cbn [List.length Nat.ltb Nat.leb nth].
    cbn [digitsOnly]. rewrite andb_true_r.
    destruct (digitsOnly 10 ip); [|reflexivity].
    eexists. split; [reflexivity|]. cbn [sd_sign sd_intPart sd_num sd_den].
    split; [exact Hsign|]. split; reflexivity.
  - cbn [List.length Nat.ltb Nat.leb nth].
    destruct (digitsOnly 10 ip); [|rewrite HL; reflexivity].
    destruct HL as (r & -> & Hr). apply splitDot_single in Hr. subst r.
    change (Ascii.eqb "." ".") with true. cbv iota.
    rewrite (parseFractionalInBase_spec 10 fp ltac:(lia)).
    cbn [andb].
    destruct (digitsOnly 10 fp); [|reflexivity].
    eexists. split; [reflexivity|]. cbn [sd_sign sd_intPart sd_num sd_den].
    split; [exact Hsign|]. split; reflexivity.
  - cbn [List.length Nat.ltb Nat.leb].
    destruct (digitsOnly 10 ip); [|rewrite HL; reflexivity].
    destruct HL as (r & -> & Hr).
    change (Ascii.eqb "." ".") with true. cbv iota.
    rewrite (parseFractionalInBase_spec 10 r ltac:(lia)).
    rewrite (splitDot_many 10 r fp x more Hr). reflexivity.
Qed.

Lemma parseRational_expected (valueStr : string) (base : Z) :
  supportedBase base ->
  match parseRational valueStr base with
  | inr r => expectedRational valueStr base = Some r
  | inl _ => expectedRational valueStr base = None
  end.
Proof.
  intros Hb. unfold parseRational, expectedRational.
  destruct (Z.eqb_spec base 10) as [->|Hne].
  - pose proof (parseSignedDecimal_grammar valueStr) as HG.
    cbn [andb].
    destruct (normalized valueStr) as [|c0 rest] eqn:En.
    + rewrite HG. reflexivity.
    + cbn [String.length Nat.eqb]. cbv beta iota zeta in HG.
      destruct (expectedMagnitude (unsignedPart (String c0 rest)) 10) as [[p q]|].
      * destruct HG as (sd & -> & Hs & <- & <-). rewrite Hs. reflexivity.
      * rewrite HG. reflexivity.
  - assert (Hr : 2 <= base <= 36) by (destruct Hb as [->|[->| ->]]; lia).
    cbn [andb]. fold (normalized valueStr).
    destruct (sign_strip_generic (normalized valueStr)) as (sign & -> & Hsign).
    cbv beta iota. unfold expectedMagnitude.
    set (t := unsignedPart (normalized valueStr)).
    pose proof (splitDot_nonempty t) as Hne0.
    destruct (JS.splitDot t) as [|ip [|fp [|x more]]]; [congruence| | |reflexivity];
      cbn [List.length Nat.ltb Nat.leb nth];
      rewrite (accumulateDigits_spec base ip Hr 0),
        (parseFractionalInBase_spec base _ Hr);
      fold (radixValue base ip);
      destruct (digitsOnly base ip); cbn [andb]; try reflexivity;
      [ cbn [digitsOnly] | destruct (digitsOnly base fp); [|reflexivity] ];
      rewrite Hsign; reflexivity.
Qed.

(** X7. The parser accepts exactly the numerals of the grammar and returns
    their exact value: after [trim] and the removal of ['_'], an optional
    sign, digits of the base, and optionally one point followed by digits of
    the base (either run may be empty); the result is the sign and the
    fraction whose numerator is all the digits read as one number in the
    base and whose denominator is the base to the number of fractional
    digits. Anything else is an error. The decimal path and the path of
    bases 2 and 16 agree on this, except that base 10 alone rejects the
    empty input. With a valid format, the conversion reports an error
    exactly for the texts outside the grammar. *)
Theorem parseRational_grammar
    (valueStr : string) (base : Z) (signed : bool) (m n : Z) :
  supportedBase base ->
  validFormat signed m n ->
  match parseRational valueStr base with
  | inr r => expectedRational valueStr base = Some r
  | inl _ => expectedRational valueStr base = None
  end
  /\ ((exists e, parseInputToScaled valueStr base signed m n = Err e)
      <-> expectedRational valueStr base = None).
Proof.
  intros Hb Hf.
  pose proof (parseRational_expected valueStr base Hb) as HG.
  split; [exact HG|].
  unfold parseInputToScaled. rewrite (validFormat_gate signed m n Hf).
  destruct (parseRational valueStr base) as [e|[[neg p] q]].
  - split; [intros _; exact HG | intros _; exists e; reflexivity].
  - split.
    + intros [e He]. unfold saturate in He. discriminate He.
    + intros Hnone. rewrite Hnone in HG. discriminate HG.
Qed.

Lemma parseRational_grammar_witness :
  expectedRational " -1_0.01 " 2 = Some (true, 9, 4)
  /\ parseRational " -1_0.01 " 2 = inr (true, 9, 4)
  /\ ((exists e, parseInputToScaled "1.2" 2 true 3 5 = Err e)
      <-> expectedRational "1.2" 2 = None).
Proof.
  split; [reflexivity|]. split; [reflexivity|].
  apply (parseRational_grammar "1.2" 2 true 3 5).
  - left; reflexivity.
  - unfold validFormat, totalBits. lia.
Defined.

(** ** What every result satisfies *)

Lemma result_is_representable_lemma
    (valueStr : string) (base : Z) (signed : bool) (m n : Z) :
  (~ validFormat signed m n ->
   parseInputToScaled valueStr base signed m n = Err "Invalid bit widths.")
  /\ (forall sc ov,
        parseInputToScaled valueStr base signed m n = Scaled sc ov ->
        validFormat signed m n
        /\ rangeMin signed (totalBits signed m n) <= sc <= rangeMax signed (totalBits signed m n)
        /\ (ov = true ->
            sc = rangeMin signed (totalBits signed m n)
            \/ sc = rangeMax signed (totalBits signed m n))).
Proof.
  unfold parseInputToScaled. set (N := totalBits signed m n).
  destruct (Z.leb_spec N 0) as [H1|H1]; cbn [orb].
  { split; [reflexivity | discriminate]. }
  destruct (Z.ltb_spec m 0) as [H2|H2]; cbn [orb].
  { split; [reflexivity | discriminate]. }
  destruct (Z.ltb_spec n 0) as [H3|H3].
  { split; [reflexivity | discriminate]. }
  assert (Hf : validFormat signed m n) by (unfold validFormat; fold N; lia).
  split; [intros Hnf; destruct (Hnf Hf)|].
  intros sc ov.
  destruct (parseRational valueStr base) as [e|[[neg p] q]]; [discriminate|].
  set (c := candidateScaled neg p q n).
  pose proof (range_order signed N ltac:(lia)) as Ho.
  unfold saturate.
  destruct (Z.ltb_spec c (rangeMin signed N)), (Z.ltb_spec (rangeMax signed N) c);
    cbn [orb]; intros [= <- <-]; (split; [exact Hf|]); split; try lia;
    intros; try discriminate; auto.
Qed.

(** X8. Whatever the input text and the base: with an invalid format
    (no bit at all, or a negative count) the result is the error
    ["Invalid bit widths."], before the text is looked at; and a result that
    is not an error always comes with a valid format, lies within the range
    of the format, and carries the overflow flag only when it sits on one of
    the two bounds. *)
Theorem result_is_representable
    (valueStr : string) (base : Z) (signed : bool) (m n : Z) :
  (~ validFormat signed m n ->
   parseInputToScaled valueStr base signed m n = Err "Invalid bit widths.")
  /\ (forall sc ov,
        parseInputToScaled valueStr base signed m n = Scaled sc ov ->
        validFormat signed m n
        /\ rangeMin signed (totalBits signed m n) <= sc <= rangeMax signed (totalBits signed m n)
        /\ (ov = true ->
            sc = rangeMin signed (totalBits signed m n)
            \/ sc = rangeMax signed (totalBits signed m n))).
Proof.
  split.
  - intros Hnf. unfold parseInputToScaled.
    assert (G : (totalBits signed m n <=? 0) || (m <? 0) || (n <? 0) = true).
    { apply orb_true_iff.
      destruct (Z.leb_spec (totalBits signed m n) 0); [left; reflexivity|].
      destruct (Z.ltb_spec m 0); [left; reflexivity|].
      destruct (Z.ltb_spec n 0); [right; reflexivity|].
      exfalso. apply Hnf. unfold validFormat. lia. }
    rewrite G. reflexivity.
  - intros sc ov H.
    exact (proj2 (result_is_representable_lemma valueStr base signed m n) sc ov H).
Qed.

Lemma result_is_representable_witness :
  parseInputToScaled "1" 10 false 0 0 = Err "Invalid bit widths.".
Proof.
  apply (proj1 (result_is_representable "1" 10 false 0 0)).
  unfold validFormat, totalBits. lia.
Defined.

Lemma scaledAbsOf_nonneg (p q n : Z) :
  0 <= p -> 0 < q -> 0 <= n -> 0 <= scaledAbsOf p q n.
Proof.
  intros Hp Hq Hn. rewrite scaledAbsOf_floor by assumption.
  assert (0 < 2 ^ n) by (apply Z.pow_pos_nonneg; lia).
  assert (0 <= p * 2 ^ n / q) by (apply Z.div_pos; nia).
  destruct (q <=? 2 * ((p * 2 ^ n) mod q)); lia.
Qed.

(** X9. A negative input in an unsigned format gives the scaled value 0.
    The overflow flag is raised exactly when the magnitude rounds to
    something other than zero: a negative input that rounds to zero (["-0"],
    or a magnitude below half a step) is reported as in range. *)
Theorem unsigned_negative_input
    (valueStr : string) (base m n p q : Z) :
  supportedBase base ->
  validFormat false m n ->
  parseRational valueStr base = inr (true, p, q) ->
  parseInputToScaled valueStr base false m n = Scaled 0 (0 <? scaledAbsOf p q n).
Proof.
  intros Hb Hf Hp.
  rewrite (parseInputToScaled_parsed valueStr base false m n true p q Hf Hp).
  destruct (parseRational_sound valueStr base true p q Hb Hp) as [Hp0 Hq0].
  pose proof (scaledAbsOf_nonneg p q n Hp0 Hq0 ltac:(apply Hf)) as Ha.
  destruct Hf as (_ & _ & HN).
  pose proof (range_order false (totalBits false m n) HN) as Ho.
  unfold candidateScaled, saturate.
  change (rangeMin false (totalBits false m n)) with 0 in *.
  destruct (Z.ltb_spec 0 (scaledAbsOf p q n)) as [Hpos|Hzero].
  - replace (- scaledAbsOf p q n <? 0) with true by (symmetry; apply Z.ltb_lt; lia).
    reflexivity.
  - replace (scaledAbsOf p q n) with 0 by lia.
    change (- 0) with 0. change (0 <? 0) with false.
    replace (rangeMax false (totalBits false m n) <? 0) with false
      by (symmetry; apply Z.ltb_ge; lia).
    reflexivity.
Qed.

Lemma unsigned_negative_input_witness :
  parseInputToScaled "-0.1" 10 false 4 2 = Scaled 0 false
  /\ parseInputToScaled "-0.2" 10 false 4 2 = Scaled 0 true.
Proof.
  split.
  - apply (unsigned_negative_input "-0.1" 10 4 2 1 10);
      [right; left; reflexivity | unfold validFormat, totalBits; lia | reflexivity].
  - apply (unsigned_negative_input "-0.2" 10 4 2 2 10);
      [right; left; reflexivity | unfold validFormat, totalBits; lia | reflexivity].
Defined.

(** ** Decimal text back through the parser *)

Lemma digit_char_plain (c : ascii) (v : Z) :
  JS.digitValue c = Some v ->
  JS.isWhiteSpace c = false /\ Ascii.eqb c "_" = false
  /\ Ascii.eqb c "." = false /\ isSignChar c = false.
Proof.
  intros H.
  destruct c as [[] [] [] [] [] [] [] []]; cbv in H; try discriminate H;
    repeat split; reflexivity.
Qed.

Lemma append_empty_r (s : string) : s ++ EmptyString = s.
Proof. induction s as [|c s IH]; [reflexivity | cbn [append]; rewrite IH; reflexivity]. Qed.

Lemma plainOnly_app (s1 s2 : string) :
  plainOnly (s1 ++ s2) = plainOnly s1 && plainOnly s2.
Proof.
  induction s1 as [|c s1 IH]; [reflexivity|].
  cbn [append plainOnly]. rewrite IH, !andb_assoc. reflexivity.
Qed.

Lemma digitsOnly_facts (b : Z) (s : string) :
  digitsOnly b s = true ->
  plainOnly s = true /\ JS.splitDot s = [s]
  /\ unsignedPart s = s /\ hasMinus s = false.
Proof.
  intros H.
  assert (Hmain : plainOnly s = true /\ JS.splitDot s = [s]).
  { induction s as [|c s IH]; [split; reflexivity|].
    cbn [digitsOnly] in H. apply andb_true_iff in H. destruct H as [Hc Hs].
    destruct (JS.digitValue c) as [v|] eqn:E; [|discriminate].
    destruct (digit_char_plain c v E) as (W & U & D & _).
    destruct (IH Hs) as [IP IS].
    cbn [plainOnly JS.splitDot]. rewrite W, U, D, IP, IS. split; reflexivity. }
  destruct Hmain as [HP HS]. split; [exact HP|]. split; [exact HS|].
  destruct s as [|c s]; [split; reflexivity|].
  cbn [digitsOnly] in H. apply andb_true_iff in H. destruct H as [Hc _].
  destruct (JS.digitValue c) as [v|] eqn:E; [|discriminate].
  destruct (digit_char_plain c v E) as (_ & _ & _ & S).
  cbn [unsignedPart hasMinus]. rewrite S.
  unfold isSignChar in S. apply orb_false_iff in S. destruct S as [_ ->].
  split; reflexivity.
Qed.

Lemma digitsOnly_head (b : Z) (c : ascii) (r : string) :
  digitsOnly b (String c r) = true -> isSignChar c = false.
Proof.
  cbn [digitsOnly]. intros H. apply andb_true_iff in H. destruct H as [Hc _].
  destruct (JS.digitValue c) as [v|] eqn:E; [|discriminate].
  apply (digit_char_plain c v E).
Qed.

Lemma trimEnd_plain (s : string) : plainOnly s = true -> JS.trimEnd s = s.
Proof.
  induction s as [|c s IH]; [reflexivity|].
  cbn [plainOnly]. intros H.
  apply andb_true_iff in H. destruct H as [H Hs].
  apply andb_true_iff in H. destruct H as [Hw _].
  apply negb_true_iff in Hw.
  rewrite trimEnd_cons_plain by exact Hw. rewrite IH by exact Hs. reflexivity.
Qed.

Lemma normalized_plain (s : string) : plainOnly s = true -> normalized s = s.
Proof.
  intros H. unfold normalized, JS.trim.
  assert (Hst : JS.trimStart s = s).
  { destruct s as [|c s]; [reflexivity|].
    cbn [plainOnly] in H. cbn [JS.trimStart].
    destruct (JS.isWhiteSpace c); [discriminate | reflexivity]. }
  rewrite Hst, (trimEnd_plain s H).
  induction s as [|c s IH]; [reflexivity|].
  cbn [plainOnly] in H.
  apply andb_true_iff in H. destruct H as [H Hs].
  apply andb_true_iff in H. destruct H as [_ Hu].
  apply negb_true_iff in Hu.
  cbn [rmall]. rewrite Hu, IH; [reflexivity | exact Hs |].
  destruct s as [|d s]; [reflexivity|].
  cbn [plainOnly] in Hs. cbn [JS.trimStart].
  destruct (JS.isWhiteSpace d); [discriminate | reflexivity].
Qed.

Lemma splitDot_point (s1 s2 : string) :
  JS.splitDot s1 = [s1] ->
  JS.splitDot (s1 ++ String "." s2) = s1 :: JS.splitDot s2.
Proof.
  induction s1 as [|c r IH]; [reflexivity|].
  cbn [JS.splitDot append].
  destruct (Ascii.eqb c ".").
  - intros H. inversion H.
  - destruct (JS.splitDot r) as [|q qs] eqn:E; [destruct (splitDot_nonempty r E)|].
    intros H. injection H as Hq Hqs. subst q qs.
    rewrite (IH eq_refl). reflexivity.
Qed.

(** A numeral written as sign, digits and, with a point, more digits, is
    parsed to the number it stands for. *)
Lemma numeral_parses (base : Z) (neg : bool) (ip fp tail : string) :
  supportedBase base ->
  digitsOnly base ip = true -> ip <> EmptyString -> digitsOnly base fp = true ->
  (tail = EmptyString /\ fp = EmptyString) \/ tail = String "." fp ->
  parseRational ((if neg then "-" else "") ++ ip ++ tail) base
  = inr (neg,
         radixValue base ip * base ^ Z.of_nat (String.length fp) + radixValue base fp,
         base ^ Z.of_nat (String.length fp)).
Proof.
  intros Hbase Hip Hne Hfp Htail.
  set (text := (if neg then "-" else "") ++ ip ++ tail).
  destruct (digitsOnly_facts base ip Hip) as (Pip & Sip & Uip & Mip).
  destruct (digitsOnly_facts base fp Hfp) as (Pfp & Sfp & _ & _).
  assert (Ptail : plainOnly tail = true).
  { destruct Htail as [[-> _] | ->]; [reflexivity|].
    cbn [plainOnly]. rewrite Pfp. reflexivity. }
  assert (Pbody : plainOnly (ip ++ tail) = true)
    by (rewrite plainOnly_app, Pip, Ptail; reflexivity).
  assert (Ptext : plainOnly text = true).
  { unfold text. destruct neg; [|exact Pbody].
    cbn [append plainOnly]. rewrite Pbody. reflexivity. }
  assert (Hsplit : JS.splitDot (ip ++ tail) = ip :: (if String.eqb tail "" then [] else [fp])).
  { destruct Htail as [[-> _] | ->].
    - rewrite append_empty_r. exact Sip.
    - rewrite (splitDot_point ip fp Sip), Sfp. reflexivity. }
  assert (Hbody : unsignedPart text = ip ++ tail /\ hasMinus text = neg
                  /\ (String.length text =? 0)%nat = false).
  { unfold text. destruct ip as [|c r]; [congruence|].
    destruct neg; [repeat split; reflexivity|].
    cbn [append unsignedPart hasMinus String.length Nat.eqb] in *.
    rewrite (digitsOnly_head base c r Hip).
    split; [reflexivity|]. split; [exact Mip | reflexivity]. }
  destruct Hbody as (Hun & Hmin & Hlen).
  assert (Hexp : expectedRational text base
                 = Some (neg,
                         radixValue base ip * base ^ Z.of_nat (String.length fp)
                           + radixValue base fp,
                         base ^ Z.of_nat (String.length fp))).
  { unfold expectedRational. rewrite (normalized_plain text Ptext), Hlen, Hun, Hmin.
    rewrite andb_false_r. unfold expectedMagnitude. rewrite Hsplit.
    destruct Htail as [[-> ->] | ->].
    - cbn [String.eqb List.length Nat.ltb Nat.leb nth]. rewrite Hip. reflexivity.
    - cbn [String.eqb List.length Nat.ltb Nat.leb nth]. rewrite Hip, Hfp. reflexivity. }
  pose proof (parseRational_expected text base Hbase) as HG.
  destruct (parseRational text base) as [e|r]; congruence.
Qed.

Lemma decimal_numeral_parses (neg : bool) (ip fp tail : string) :
  digitsOnly 10 ip = true -> ip <> EmptyString -> digitsOnly 10 fp = true ->
  (tail = EmptyString /\ fp = EmptyString) \/ tail = String "." fp ->
  parseRational ((if neg then "-" else "") ++ ip ++ tail) 10
  = inr (neg,
         radixValue 10 ip * 10 ^ Z.of_nat (String.length fp) + radixValue 10 fp,
         10 ^ Z.of_nat (String.length fp)).
Proof. apply numeral_parses. right; left; reflexivity. Qed.

Lemma scaledAbsOf_exact (p q n a : Z) :
  0 <= p -> 0 < q -> 0 <= n -> p * 2 ^ n = a * q -> scaledAbsOf p q n = a.
Proof.
  intros Hp Hq Hn E. rewrite scaledAbsOf_floor by assumption.
  rewrite E, Z.div_mul, Z.mod_mul by lia.
  replace (q <=? 2 * 0) with false by (symmetry; apply Z.leb_gt; lia). lia.
Qed.

(** With at least as many decimal digits as fractional bits the fraction is
    written exactly. *)
Lemma exact_decimal_fraction (frac n p : Z) :
  1 <= n <= p -> 0 <= frac < 2 ^ n ->
  let fracDec := (frac * 10 ^ p + 2 ^ (n - 1)) / 2 ^ n in
  fracDec * 2 ^ n = frac * 10 ^ p /\ 0 <= fracDec < 10 ^ p.
Proof.
  intros Hnp Hfrac fracDec.
  assert (Hpow : 0 < 2 ^ n) by (apply Z.pow_pos_nonneg; lia).
  assert (Hten : 0 < 10 ^ p) by (apply Z.pow_pos_nonneg; lia).
  pose proof (pow2_N_pos n ltac:(lia)) as Hhalf.
  pose proof (pow2_N_split n ltac:(lia)) as Hsplit.
  set (K := frac * (2 ^ (p - n) * 5 ^ p)).
  assert (E10 : 10 ^ p = 2 ^ n * (2 ^ (p - n) * 5 ^ p)).
  { change 10 with (2 * 5). rewrite Z.pow_mul_l.
    replace p with (n + (p - n)) at 1 by lia.
    rewrite Z.pow_add_r by lia. ring. }
  assert (EK : frac * 10 ^ p = K * 2 ^ n) by (unfold K; rewrite E10; ring).
  assert (Ef : fracDec = K).
  { unfold fracDec. rewrite EK, Z.div_add_l, Z.div_small by lia. lia. }
  rewrite Ef. split; [lia|].
  assert (0 <= K).
  { unfold K. apply Z.mul_nonneg_nonneg; [lia|].
    apply Z.mul_nonneg_nonneg; apply Z.pow_nonneg; lia. }
  nia.
Qed.

Lemma toStringRadix_nonempty (x b : Z) :
  0 <= x -> JS.toStringRadix x b <> EmptyString.
Proof.
  intros Hx. unfold JS.toStringRadix.
  replace (x <? 0) with false by (symmetry; apply Z.ltb_ge; lia).
  cbn [JS.digitsOf].
  destruct (if Z.abs x / b =? 0 then EmptyString else _); discriminate.
Qed.

(** The decimal text of a value, parsed in base 10, is the value as an
    exact fraction of the scale. *)
Lemma decimal_text_parses (scaled n p : Z) :
  0 <= n -> n = 0 \/ n <= p ->
  exists P Q,
    parseRational (scaledToDecimalString scaled n p) 10 = inr (scaled <? 0, P, Q)
    /\ 0 <= P /\ 0 < Q /\ P * 2 ^ n = Z.abs scaled * Q.
Proof.
  intros Hn Hnp.
  set (a := Z.abs scaled) in *.
  assert (Hpow : 0 < 2 ^ n) by (apply Z.pow_pos_nonneg; lia).
  assert (Hq : 0 <= a / 2 ^ n) by (apply Z.div_pos; unfold a; lia).
  destruct (toStringRadix_spec 10 ltac:(lia) (a / 2 ^ n) Hq) as (HdI & HvI & _).
  pose proof (scaledToDecimalString_flat scaled n p Hn) as Hflat. fold a in Hflat.
  pose proof (scaledToDecimalString_fraction scaled n p) as Hfrac.
  cbv zeta in Hfrac. fold a in Hfrac.
  pose proof (toStringRadix_nonempty (a / 2 ^ n) 10 Hq) as Hne.
  pose proof (Z.div_mod a (2 ^ n) ltac:(lia)) as Hdm.
  pose proof (Z.mod_pos_bound a (2 ^ n) Hpow) as Hm.
  destruct (Z.eq_dec n 0) as [E0|E0].
  - rewrite (Hflat (or_intror E0)).
    replace ((if scaled <? 0 then "-" else "") ++ JS.toStringRadix (a / 2 ^ n) 10)
      with ((if scaled <? 0 then "-" else "")
              ++ JS.toStringRadix (a / 2 ^ n) 10 ++ EmptyString)
      by (rewrite append_empty_r; reflexivity).
    rewrite (decimal_numeral_parses (scaled <? 0) _ EmptyString EmptyString
               HdI Hne eq_refl (or_introl (conj eq_refl eq_refl))).
    eexists _, _. split; [reflexivity|].
    rewrite HvI. cbn [String.length Z.of_nat radixValue radixValueFrom].
    subst n. change (2 ^ 0) with 1 in *. rewrite Z.div_1_r in *.
    change (10 ^ 0) with 1. repeat split; lia.
  - assert (Hn1 : 1 <= n) by lia. assert (Hp1 : 1 <= p) by lia.
    destruct (Hfrac Hn1 Hp1) as (_ & _ & fracStr & -> & HdF & HvF & HlF).
    destruct (exact_decimal_fraction (a mod 2 ^ n) n p ltac:(lia) Hm) as [Hex Hlt].
    set (fracDec := (a mod 2 ^ n * 10 ^ p + 2 ^ (n - 1)) / 2 ^ n) in *.
    replace (fracDec <? 10 ^ p) with true in HlF by (symmetry; apply Z.ltb_lt; lia).
    change ("." ++ fracStr) with (String "." fracStr).
    rewrite (decimal_numeral_parses (scaled <? 0) _ fracStr (String "." fracStr)
               HdI Hne HdF (or_intror eq_refl)).
    eexists _, _. split; [reflexivity|].
    rewrite HvI, HvF, HlF.
    assert (Hten : 0 < 10 ^ p) by (apply Z.pow_pos_nonneg; lia).
    repeat split; nia.
Qed.

(** X10. Decimal round trip. For a valid format and a scaled value within
    its range, the decimal text written with at least as many decimal digits
    as the format has fractional bits (any precision when it has none),
    parsed again in base 10 for the same format, gives the same scaled value
    back with no overflow. *)
Theorem decimal_text_roundtrip (signed : bool) (m n p scaled : Z) :
  validFormat signed m n ->
  rangeMin signed (totalBits signed m n) <= scaled <= rangeMax signed (totalBits signed m n) ->
  n = 0 \/ n <= p ->
  parseInputToScaled (scaledToDecimalString scaled n p) 10 signed m n
  = Scaled scaled false.
Proof.
  intros Hf Hr Hnp.
  assert (Hn : 0 <= n) by apply Hf.
  destruct (decimal_text_parses scaled n p Hn Hnp) as (P & Q & Hparse & HP & HQ & HE).
  rewrite (parseInputToScaled_parsed _ 10 signed m n _ P Q Hf Hparse).
  unfold candidateScaled.
  rewrite (scaledAbsOf_exact P Q n (Z.abs scaled) HP HQ Hn HE).
  assert (Ec : (if scaled <? 0 then - Z.abs scaled else Z.abs scaled) = scaled)
    by (destruct (Z.ltb_spec scaled 0); lia).
  rewrite Ec.
  apply (saturate_cases signed (totalBits signed m n) scaled); [apply Hf | exact Hr].
Qed.

Lemma decimal_text_roundtrip_witness :
  scaledToDecimalString (-101) 5 6 = "-3.156250"
  /\ parseInputToScaled (scaledToDecimalString (-101) 5 6) 10 true 3 5 = Scaled (-101) false.
Proof.
  split; [reflexivity|].
  apply (decimal_text_roundtrip true 3 5 6 (-101)).
  - unfold validFormat, totalBits. lia.
  - vm_compute. split; discriminate.
  - right. lia.
Defined.

(** X11. The bit editor is consistent in base 10. After a click on bit
    [idx] the input field holds the decimal text of the toggled value at
    precision [max(12, precision)]; when the format has no more fractional
    bits than that, converting the field again in base 10 gives exactly the
    toggled value, with no overflow. *)
Theorem click_then_convert (signed : bool) (m n precision scaled idx : Z) :
  validFormat signed m n ->
  let N := totalBits signed m n in
  rangeMin signed N <= scaled <= rangeMax signed N ->
  0 <= idx < N ->
  n <= Z.max 12 precision ->
  parseInputToScaled (clickValueStr signed N n precision scaled idx) 10 signed m n
  = Scaled (toggleBit signed N scaled idx) false.
Proof.
  intros Hf N Hr Hi Hn.
  destruct (toggleBit_twos signed N scaled idx ltac:(apply Hf) Hr Hi) as [Hr' _].
  unfold clickValueStr.
  set (x := toggleBit signed N scaled idx) in *.
  assert (Hn0 : 0 <= n) by apply Hf.
  destruct (decimal_text_parses x n (Z.max 12 precision) Hn0 (or_intror Hn))
    as (P & Q & Hparse & HP & HQ & HE).
  rewrite (parseInputToScaled_parsed _ 10 signed m n _ P Q Hf Hparse).
  unfold candidateScaled.
  rewrite (scaledAbsOf_exact P Q n (Z.abs x) HP HQ Hn0 HE).
  replace (if x <? 0 then - Z.abs x else Z.abs x) with x
    by (destruct (Z.ltb_spec x 0); lia).
  apply (saturate_cases signed N x); [apply Hf | exact Hr'].
Qed.

Lemma click_then_convert_witness :
  clickValueStr true 9 5 6 (-101) 0 = "4.843750000000"
  /\ parseInputToScaled (clickValueStr true 9 5 6 (-101) 0) 10 true 3 5
     = Scaled (toggleBit true 9 (-101) 0) false.
Proof.
  split; [vm_compute; reflexivity|].
  apply (click_then_convert true 3 5 6 (-101) 0).
  - unfold validFormat, totalBits. lia.
  - vm_compute. split; discriminate.
  - unfold totalBits. lia.
  - lia.
Defined.

(** ** [formatGrouped], the grouping helper without a caller *)

Lemma string_app_assoc (a b c : string) : (a ++ b) ++ c = a ++ b ++ c.
Proof. induction a as [|x a IH]; [reflexivity | cbn [append]; rewrite IH; reflexivity]. Qed.

Lemma rmall_app (a b : string) (sep : ascii) :
  rmall (a ++ b) sep = rmall a sep ++ rmall b sep.
Proof.
  induction a as [|x a IH]; [reflexivity|].
  cbn [append rmall]. destruct (Ascii.eqb x sep); rewrite IH; reflexivity.
Qed.

Lemma separatorOffsets_app (sep : ascii) (a b : string) (k : nat) :
  separatorOffsets sep (a ++ b) k
  = (separatorOffsets sep a k
       ++ separatorOffsets sep b (k + String.length (rmall a sep)))%list.
Proof.
  revert k. induction a as [|x a IH]; intros k.
  - cbn [append separatorOffsets rmall String.length app]. f_equal. lia.
  - cbn [append separatorOffsets rmall]. destruct (Ascii.eqb x sep).
    + rewrite IH. reflexivity.
    + rewrite IH. cbn [String.length]. do 2 f_equal. lia.
Qed.

Lemma bits_underscore (s : string) :
  bitsOnly s = true ->
  rmall s "_" = s /\ forall k, separatorOffsets "_" s k = [].
Proof.
  induction s as [|c s IH]; intros H; [split; reflexivity|].
  apply bitsOnly_cons in H. destruct H as [Hc Hs]. destruct (IH Hs) as [I1 I2].
  assert (E : Ascii.eqb c "_" = false)
    by (destruct (isBit_cases c Hc) as [-> | ->]; reflexivity).
  cbn [rmall separatorOffsets]. rewrite E, I1. split; [reflexivity|].
  intros k. apply I2.
Qed.

Lemma bitsOnly_slices (k : nat) (s : string) :
  bitsOnly s = true ->
  bitsOnly (JS.sliceTo k s) = true /\ bitsOnly (JS.sliceFrom k s) = true.
Proof.
  intros H. rewrite <- (slice_app k s), bitsOnly_app in H.
  apply andb_true_iff in H. exact H.
Qed.

Lemma groupLoop_spec (fuel : nat) :
  forall rest out j,
    bitsOnly rest = true -> String.length rest = (4 * j)%nat -> (j <= fuel)%nat ->
    rmall (groupLoop fuel rest out) "_" = rmall out "_" ++ rest
    /\ separatorOffsets "_" (groupLoop fuel rest out) 0
       = (separatorOffsets "_" out 0
            ++ map (fun t => (String.length (rmall out "_") + 4 * t)%nat) (seq 0 j))%list.
Proof.
  induction fuel as [|f IH]; intros rest out j Hb Hlen Hj.
  - assert (j = 0%nat) by lia. subst j.
    destruct rest; [|discriminate Hlen].
    cbn [groupLoop seq map]. rewrite append_empty_r, app_nil_r. split; reflexivity.
  - destruct rest as [|c r] eqn:Er.
    + assert (j = 0%nat) by (cbn [String.length] in Hlen; lia). subst j.
      cbn [groupLoop seq map]. rewrite append_empty_r, app_nil_r. split; reflexivity.
    + rewrite <- Er in *. clear Er c r.
      destruct j as [|j]; [destruct rest; [|cbn [String.length] in Hlen; lia];
                           cbn [groupLoop seq map];
                           rewrite append_empty_r, app_nil_r; split; reflexivity|].
      destruct (bitsOnly_slices 4 rest Hb) as [Bt Bf].
      destruct (bits_underscore _ Bt) as [Rt Ot].
      assert (Lt : String.length (JS.sliceTo 4 rest) = 4%nat)
        by (rewrite length_sliceTo; lia).
      assert (Lf : String.length (JS.sliceFrom 4 rest) = (4 * j)%nat)
        by (rewrite length_sliceFrom; lia).
      assert (Eg : groupLoop (S f) rest out
                   = groupLoop f (JS.sliceFrom 4 rest) (out ++ "_" ++ JS.sliceTo 4 rest)).
      { destruct rest; [discriminate Hlen | reflexivity]. }
      rewrite Eg.
      destruct (IH (JS.sliceFrom 4 rest) (out ++ "_" ++ JS.sliceTo 4 rest) j Bf Lf ltac:(lia))
        as [I1 I2].
      assert (Ro : rmall (out ++ "_" ++ JS.sliceTo 4 rest) "_"
                   = rmall out "_" ++ JS.sliceTo 4 rest).
      { rewrite rmall_app. change ("_" ++ JS.sliceTo 4 rest) with (String "_" (JS.sliceTo 4 rest)).
        cbn [rmall]. change (Ascii.eqb "_" "_") with true. cbv iota. rewrite Rt. reflexivity. }
      split.
      * rewrite I1, Ro, string_app_assoc, slice_app. reflexivity.
      * rewrite I2, Ro, separatorOffsets_app.
        change ("_" ++ JS.sliceTo 4 rest) with (String "_" (JS.sliceTo 4 rest)).
        cbn [separatorOffsets]. change (Ascii.eqb "_" "_") with true. cbv iota.
        rewrite Ot, length_app, Lt, <- app_assoc.
        f_equal. cbn [app seq map].
        f_equal; [lia|].
        rewrite <- seq_shift, map_map. apply map_ext. intros t. lia.
Qed.

Lemma stripLeadingZeros_bits (s : string) :
  bitsOnly s = true -> s <> EmptyString ->
  let z := stripLeadingZeros s in
  bitsOnly z = true /\ z <> EmptyString /\ bitsValue z = bitsValue s
  /\ (z = "0" \/ msbIsOne z = true).
Proof.
  induction s as [|c s IH]; intros H Hne; [congruence|].
  apply bitsOnly_cons in H. destruct H as [Hc Hs].
  cbn [stripLeadingZeros].
  destruct (isBit_cases c Hc) as [-> | ->].
  - change (Ascii.eqb "0" "0") with true. cbv iota.
    destruct s as [|d s'].
    + repeat split; [discriminate | left; reflexivity].
    + assert (Hd : isDecimalDigit d = true).
      { apply bitsOnly_cons in Hs. destruct Hs as [Hd _].
        destruct (isBit_cases d Hd) as [-> | ->]; reflexivity. }
      rewrite Hd.
      destruct (IH Hs ltac:(discriminate)) as (I1 & I2 & I3 & I4).
      repeat split; assumption.
  - change (Ascii.eqb "1" "0") with false. cbv iota.
    split; [apply bitsOnly_cons; split; [reflexivity | exact Hs]|].
    split; [discriminate|]. split; [reflexivity | right; reflexivity].
Qed.

Lemma group_arith (len : nat) :
  (4 < len)%nat ->
  let i := match (len mod 4)%nat with O => 4%nat | r => r end in
  let j := ((len - 1) / 4)%nat in
  (1 <= i <= 4 /\ len - i = 4 * j /\ i = len - 4 * j /\ 1 <= j)%nat.
Proof.
  intros Hlen i j.
  pose proof (Nat.div_mod_eq len 4) as E.
  pose proof (Nat.mod_upper_bound len 4 ltac:(lia)) as Hm.
  assert (Hj : j = (match (len mod 4)%nat with O => len / 4 - 1 | _ => len / 4 end)%nat).
  { unfold j. destruct (len mod 4)%nat as [|r] eqn:Er.
    - symmetry. apply (Nat.div_unique (len - 1) 4 (len / 4 - 1) 3); lia.
    - symmetry. apply (Nat.div_unique (len - 1) 4 (len / 4) r); lia. }
  unfold i. rewrite Hj. destruct (len mod 4)%nat; lia.
Qed.

(** X12. [formatGrouped] on a non-empty pattern of bits. It drops the
    leading zeros (all but the last digit), so the digits it shows read as
    the same number but are fewer than the pattern has whenever the pattern
    starts with a zero; it then puts a ['_'] before every group of four
    digits counted from the right end, and none before the first digit. *)
Theorem formatGrouped_bits (s : string) :
  bitsOnly s = true -> s <> EmptyString ->
  let z := stripLeadingZeros s in
  let out := formatGrouped s in
  let len := String.length z in
  let j := ((len - 1) / 4)%nat in
  rmall out "_" = z
  /\ bitsValue z = bitsValue s
  /\ (z = "0" \/ msbIsOne z = true)
  /\ separatorOffsets "_" out 0 = map (fun t => (len - 4 * (j - t))%nat) (seq 0 j).
Proof.
  intros Hb Hne. cbv zeta.
  destruct (stripLeadingZeros_bits s Hb Hne) as (Bz & Nz & Vz & Mz).
  remember (stripLeadingZeros s) as z eqn:Ez.
  set (len := String.length z). set (j := ((len - 1) / 4)%nat).
  destruct (bits_underscore z Bz) as [Rz Oz].
  assert (Hout : formatGrouped s
                 = if (len <=? 4)%nat then z
                   else let i := match (len mod 4)%nat with O => 4%nat | r => r end in
                        groupLoop len (JS.sliceFrom i z) (JS.sliceTo i z)).
  { unfold formatGrouped. rewrite <- Ez. destruct z; [congruence | reflexivity]. }
  rewrite Hout. clear Hout.
  assert (core :
    let out := if (len <=? 4)%nat then z
               else let i := match (len mod 4)%nat with O => 4%nat | r => r end in
                    groupLoop len (JS.sliceFrom i z) (JS.sliceTo i z) in
    rmall out "_" = z
    /\ separatorOffsets "_" out 0 = map (fun t => (len - 4 * (j - t))%nat) (seq 0 j)).
  { cbv zeta. destruct (Nat.leb_spec len 4) as [Hs|Hl].
    - split; [exact Rz|]. rewrite Oz.
      assert (Ej : j = 0%nat).
      { unfold j. apply Nat.div_small.
        assert (len <> 0%nat) by (unfold len; destruct z; [congruence | discriminate]).
        lia. }
      rewrite Ej. reflexivity.
    - pose proof (group_arith len Hl) as Ha. cbv zeta in Ha. fold j in Ha.
      set (i := match (len mod 4)%nat with O => 4%nat | S r' => S r' end) in *.
      destruct Ha as (Hi & Hrest & Hi' & Hj).
      destruct (bitsOnly_slices i z Bz) as [Bt Bf].
      destruct (bits_underscore _ Bt) as [Rt Ot].
      destruct (groupLoop_spec len (JS.sliceFrom i z) (JS.sliceTo i z) j Bf
                  ltac:(rewrite length_sliceFrom; fold len; lia) ltac:(lia)) as [G1 G2].
      rewrite G1, G2, Rt, Ot, slice_app, length_sliceTo. fold len.
      split; [reflexivity|].
      cbn [app]. apply map_ext_in. intros t Ht. apply in_seq in Ht. lia. }
  destruct core as [C1 C2].
  split; [exact C1|]. split; [exact Vz|]. split; [exact Mz | exact C2].
Qed.

Lemma formatGrouped_bits_witness :
  formatGrouped "0001011010" = "101_1010"
  /\ rmall (formatGrouped "0001011010") "_" = stripLeadingZeros "0001011010".
Proof.
  split; [reflexivity|].
  apply (formatGrouped_bits "0001011010"); [reflexivity | discriminate].
Defined.

(** ** Binary text back through the parser *)

Lemma bits_radix2 (s : string) :
  bitsOnly s = true ->
  digitsOnly 2 s = true /\ forall acc, radixValueFrom 2 s acc = bitsValueFrom s acc.
Proof.
  induction s as [|c s IH]; intros H; [split; reflexivity|].
  apply bitsOnly_cons in H. destruct H as [Hc Hs]. destruct (IH Hs) as [I1 I2].
  cbn [digitsOnly radixValueFrom bitsValueFrom].
  destruct (isBit_cases c Hc) as [-> | ->]; cbv [digitOr0];
    change (JS.digitValue "0") with (Some 0); change (JS.digitValue "1") with (Some 1);
    cbv iota; (split; [exact I1|]); intros acc; rewrite I2; f_equal;
    cbn [Ascii.eqb Bool.eqb]; lia.
Qed.

Lemma toBits_facts (signed : bool) (N scaled : Z) :
  1 <= N -> inRange signed N scaled ->
  Z.of_nat (String.length (toBits signed N scaled)) = N
  /\ bitsOnly (toBits signed N scaled) = true
  /\ bitsValue (toBits signed N scaled) = twosOf signed N scaled.
Proof.
  intros HN Hr.
  destruct (bigintToBinary_spec (twosOf signed N scaled) N HN) as (Hlen & Hb & Hv).
  rewrite Z.mod_small in Hv by (apply twosOf_range; assumption).
  repeat split; assumption.
Qed.

Lemma binaryWithPoint_parts (signed : bool) (N F scaled : Z) :
  1 <= N -> 1 <= F <= N ->
  exists ip fp,
    binaryWithPointFromScaled scaled N F signed = ip ++ String "." fp
    /\ bitsOnly ip = true /\ ip <> EmptyString /\ bitsOnly fp = true
    /\ Z.of_nat (String.length fp) = F
    /\ bitsValue ip * 2 ^ F + bitsValue fp = bitsValue (toBits signed N scaled).
Proof.
  intros HN HF.
  destruct (bigintToBinary_spec (twosOf signed N scaled) N HN) as (Hlen & Hb & _).
  fold (toBits signed N scaled) in Hlen, Hb.
  unfold binaryWithPointFromScaled.
  set (bits := toBits signed N scaled) in *.
  replace (F <=? 0) with false by (symmetry; apply Z.leb_gt; lia).
  rewrite Hlen. set (cut := Z.to_nat (Z.max 0 (N - F))).
  destruct (bitsOnly_slices cut bits Hb) as [Bt Bf].
  assert (Lf : Z.of_nat (String.length (JS.sliceFrom cut bits)) = F)
    by (rewrite length_sliceFrom; unfold cut; lia).
  assert (Hv : bitsValue (JS.sliceTo cut bits) * 2 ^ F + bitsValue (JS.sliceFrom cut bits)
               = bitsValue bits).
  { unfold bitsValue.
    transitivity (bitsValueFrom (JS.sliceTo cut bits ++ JS.sliceFrom cut bits) 0);
      [|rewrite slice_app; reflexivity].
    pose proof (bitsValueFrom_shift (JS.sliceFrom cut bits)
                  (bitsValueFrom (JS.sliceTo cut bits) 0)) as Hsh.
    rewrite Lf in Hsh. rewrite bitsValueFrom_app, Hsh. reflexivity. }
  destruct (JS.sliceTo cut bits) as [|c r] eqn:E.
  - exists "0", (JS.sliceFrom cut bits).
    repeat split; try assumption; try reflexivity. discriminate.
  - exists (String c r), (JS.sliceFrom cut bits).
    repeat split; try assumption. discriminate.
Qed.

(** X13. Binary round trip. For a valid format, the binary text of a
    non-negative in-range value, entered again in base 2, converts to the
    same value with no overflow. The binary text of a negative value is its
    two's-complement pattern, which the parser reads as the positive number
    [scaled + 2^N]: entered again it saturates to [max] with the overflow
    flag. *)
Theorem binary_text_roundtrip (signed : bool) (m n scaled : Z) :
  validFormat signed m n ->
  let N := totalBits signed m n in
  rangeMin signed N <= scaled <= rangeMax signed N ->
  parseInputToScaled (binaryWithPointFromScaled scaled N n signed) 2 signed m n
  = if scaled <? 0 then Scaled (rangeMax signed N) true else Scaled scaled false.
Proof.
  intros Hf N Hr.
  assert (HN : 1 <= N) by apply Hf. assert (Hn : 0 <= n) by apply Hf.
  assert (HnN : n <= N).
  { unfold N, totalBits. destruct Hf as (Hm & _ & _). destruct signed; lia. }
  destruct (toBits_facts signed N scaled HN Hr) as (Hlen & Hb & Hv).
  pose proof (twosOf_range signed N HN scaled Hr) as Hu.
  pose proof (twosOf_eq signed N HN scaled Hr) as Eu.
  set (u := twosOf signed N scaled) in *.
  set (text := binaryWithPointFromScaled scaled N n signed).
  assert (Hparse : exists P Q,
             parseRational text 2 = inr (false, P, Q)
             /\ 0 <= P /\ 0 < Q /\ P * 2 ^ n = u * Q).
  { destruct (Z.eq_dec n 0) as [E0|E0].
    - assert (Et : text = EmptyString ++ toBits signed N scaled ++ EmptyString).
      { unfold text, binaryWithPointFromScaled.
        replace (n <=? 0) with true by (symmetry; apply Z.leb_le; lia).
        rewrite append_empty_r. reflexivity. }
      destruct (bits_radix2 _ Hb) as [Hd Hrv].
      rewrite Et.
      rewrite (numeral_parses 2 false _ EmptyString EmptyString
                 ltac:(left; reflexivity) Hd
                 ltac:(intros E; rewrite E in Hlen; simpl in Hlen; lia)
                 eq_refl (or_introl (conj eq_refl eq_refl))).
      eexists _, _. split; [reflexivity|].
      unfold radixValue. rewrite Hrv. fold (bitsValue (toBits signed N scaled)).
      rewrite Hv. subst n. cbn [String.length Z.of_nat radixValueFrom].
      change (2 ^ 0) with 1. repeat split; lia.
    - destruct (binaryWithPoint_parts signed N n scaled HN ltac:(lia))
        as (ip & fp & Et & Bi & Ni & Bf & Lf & Ev).
      destruct (bits_radix2 _ Bi) as [Di Ri]. destruct (bits_radix2 _ Bf) as [Df Rf].
      unfold text. rewrite Et.
      change (ip ++ String "." fp) with (EmptyString ++ ip ++ String "." fp).
      rewrite (numeral_parses 2 false ip fp (String "." fp)
                 ltac:(left; reflexivity) Di Ni Df (or_intror eq_refl)).
      eexists _, _. split; [reflexivity|].
      unfold radixValue. rewrite Ri, Rf, Lf.
      fold (bitsValue ip) (bitsValue fp). rewrite Ev, Hv.
      assert (0 < 2 ^ n) by (apply Z.pow_pos_nonneg; lia).
      repeat split; lia. }
  destruct Hparse as (P & Q & Hp & HP & HQ & HE).
  rewrite (parseInputToScaled_parsed text 2 signed m n false P Q Hf Hp).
  unfold candidateScaled. rewrite (scaledAbsOf_exact P Q n u HP HQ Hn HE).
  fold N.
  destruct (saturate_cases signed N u HN) as (Hhi & _ & Hin).
  pose proof (pow2_N_split N HN) as Hs. pose proof (pow2_N_pos N HN) as Hpp.
  unfold inRange, rangeMin, rangeMax in *. rewrite !shiftl_1_pow2 in *.
  destruct signed; cbn [andb] in *.
  - destruct (Z.ltb_spec scaled 0).
    + apply Hhi. lia.
    + rewrite Eu in *. apply Hin. lia.
  - rewrite Eu in *.
    replace (scaled <? 0) with false by (symmetry; apply Z.ltb_ge; lia).
    apply Hin. lia.
Qed.

Lemma binary_text_roundtrip_witness :
  binaryWithPointFromScaled (-6) 5 3 true = "11.010"
  /\ parseInputToScaled (binaryWithPointFromScaled (-6) 5 3 true) 2 true 1 3
     = Scaled 15 true.
Proof.
  split; [reflexivity|].
  apply (binary_text_roundtrip true 1 3 (-6)).
  - unfold validFormat, totalBits. lia.
  - vm_compute. split; discriminate.
Defined.

(** X14. In a signed format the first bit of the pattern is ['1'] exactly
    for the negative values; in an unsigned format, exactly for the values
    from [2^(N-1)] up. *)
Theorem sign_bit_of_pattern (signed : bool) (N scaled : Z) :
  1 <= N ->
  rangeMin signed N <= scaled <= rangeMax signed N ->
  msbIsOne (toBits signed N scaled)
  = if signed then scaled <? 0 else 2 ^ (N - 1) <=? scaled.
Proof.
  intros HN Hr.
  destruct (toBits_facts signed N scaled HN Hr) as (Hlen & Hb & Hv).
  assert (Hne : toBits signed N scaled <> EmptyString).
  { intros E. rewrite E in Hlen. simpl in Hlen. lia. }
  rewrite (msbIsOne_value _ Hne), Hlen, Hv, (twosOf_eq signed N HN scaled Hr).
  pose proof (pow2_N_split N HN) as Hs. pose proof (pow2_N_pos N HN) as Hpp.
  unfold inRange, rangeMin, rangeMax in Hr. rewrite !shiftl_1_pow2 in Hr.
  destruct signed; cbn [andb] in *; [|reflexivity].
  destruct (Z.ltb_spec scaled 0).
  - apply Z.leb_le. lia.
  - apply Z.leb_gt. lia.
Qed.

Lemma sign_bit_of_pattern_witness :
  msbIsOne (toBits true 5 (-6)) = true.
Proof.
  rewrite (sign_bit_of_pattern true 5 (-6)); [reflexivity | lia | vm_compute; split; discriminate].
Defined.

(** ** The conversion keeps the order *)

Lemma scaledAbsOf_monotone (p1 q1 p2 q2 n : Z) :
  0 <= p1 -> 0 < q1 -> 0 <= p2 -> 0 < q2 -> 0 <= n ->
  p1 * q2 <= p2 * q1 ->
  scaledAbsOf p1 q1 n <= scaledAbsOf p2 q2 n.
Proof.
  intros Hp1 Hq1 Hp2 Hq2 Hn Hle.
  pose proof (scaledAbsOf_nearest p1 q1 n Hp1 Hq1 Hn) as [A _].
  pose proof (scaledAbsOf_nearest p2 q2 n Hp2 Hq2 Hn) as [_ C].
  set (S1 := scaledAbsOf p1 q1 n) in *. set (S2 := scaledAbsOf p2 q2 n) in *.
  assert (HT : 0 < 2 ^ n) by (apply Z.pow_pos_nonneg; lia).
  set (T := 2 ^ n) in *.
  assert (A' : q1 * q2 * (2 * S1 - 1) <= 2 * (p1 * q2) * T) by nia.
  assert (B' : 2 * (p1 * q2) * T <= 2 * (p2 * q1) * T) by nia.
  assert (C' : 2 * (p2 * q1) * T < q1 * q2 * (2 * S2 + 1)) by nia.
  assert (Hqq : 0 < q1 * q2) by nia.
  assert (D : q1 * q2 * (2 * S1 - 1) < q1 * q2 * (2 * S2 + 1)) by lia.
  apply Z.mul_lt_mono_pos_l in D; lia.
Qed.

Lemma scaledAbsOf_zero (q n : Z) : 0 < q -> 0 <= n -> scaledAbsOf 0 q n = 0.
Proof. intros Hq Hn. apply (scaledAbsOf_exact 0 q n 0); lia. Qed.

(** X15. The conversion is monotone. Of two inputs that parse, in the same
    base or not, the one with the smaller value never converts to the larger
    scaled integer, rounding and saturation included. *)
Theorem conversion_monotone
    (s1 s2 : string) (base1 base2 : Z) (signed : bool) (m n : Z)
    (neg1 neg2 : bool) (p1 q1 p2 q2 sc1 sc2 : Z) (ov1 ov2 : bool) :
  supportedBase base1 -> supportedBase base2 ->
  parseRational s1 base1 = inr (neg1, p1, q1) ->
  parseRational s2 base2 = inr (neg2, p2, q2) ->
  signedNumerator neg1 p1 * q2 <= signedNumerator neg2 p2 * q1 ->
  parseInputToScaled s1 base1 signed m n = Scaled sc1 ov1 ->
  parseInputToScaled s2 base2 signed m n = Scaled sc2 ov2 ->
  sc1 <= sc2.
Proof.
  intros Hb1 Hb2 Hp1 Hp2 Hle R1 R2.
  assert (Hf : validFormat signed m n)
    by (apply (proj2 (result_is_representable_lemma s1 base1 signed m n) sc1 ov1 R1)).
  destruct (parseRational_sound s1 base1 neg1 p1 q1 Hb1 Hp1) as [P1 Q1].
  destruct (parseRational_sound s2 base2 neg2 p2 q2 Hb2 Hp2) as [P2 Q2].
  assert (Hn : 0 <= n) by apply Hf.
  rewrite (parseInputToScaled_parsed s1 base1 signed m n neg1 p1 q1 Hf Hp1) in R1.
  rewrite (parseInputToScaled_parsed s2 base2 signed m n neg2 p2 q2 Hf Hp2) in R2.
  pose proof (scaledAbsOf_nonneg p1 q1 n P1 Q1 Hn) as N1.
  pose proof (scaledAbsOf_nonneg p2 q2 n P2 Q2 Hn) as N2.
  assert (Hc : candidateScaled neg1 p1 q1 n <= candidateScaled neg2 p2 q2 n).
  { unfold candidateScaled, signedNumerator in *.
    destruct neg1, neg2.
    - pose proof (scaledAbsOf_monotone p2 q2 p1 q1 n P2 Q2 P1 Q1 Hn ltac:(lia)). lia.
    - lia.
    - assert (p1 = 0) by nia. assert (p2 = 0) by nia. subst p1 p2.
      rewrite !scaledAbsOf_zero by assumption. lia.
    - apply scaledAbsOf_monotone; assumption. }
  set (c1 := candidateScaled neg1 p1 q1 n) in *.
  set (c2 := candidateScaled neg2 p2 q2 n) in *.
  pose proof (range_order signed (totalBits signed m n) ltac:(apply Hf)) as Ho.
  unfold saturate in R1, R2.
  destruct (Z.ltb_spec c1 (rangeMin signed (totalBits signed m n))),
           (Z.ltb_spec (rangeMax signed (totalBits signed m n)) c1),
           (Z.ltb_spec c2 (rangeMin signed (totalBits signed m n))),
           (Z.ltb_spec (rangeMax signed (totalBits signed m n)) c2);
    cbn [orb] in R1, R2; injection R1 as <- _; injection R2 as <- _; lia.
Qed.

Lemma conversion_monotone_witness :
  parseInputToScaled "-0.3" 10 true 3 5 = Scaled (-10) false
  /\ parseInputToScaled "0.01" 2 true 3 5 = Scaled 8 false
  /\ -10 <= 8.
Proof.
  split; [reflexivity|]. split; [reflexivity|].
  apply (conversion_monotone "-0.3" "0.01" 10 2 true 3 5 true false 3 10 1 4
           (-10) 8 false false).
  - right; left; reflexivity.
  - left; reflexivity.
  - reflexivity.
  - reflexivity.
  - vm_compute. discriminate.
  - reflexivity.
  - reflexivity.
Defined.

(** ** A sign in front of a numeral *)

Lemma unsignedPart_fixed (t : string) :
  unsignedPart t = t -> hasMinus t = false.
Proof.
  destruct t as [|c r]; [reflexivity|].
  cbn [unsignedPart hasMinus]. unfold isSignChar.
  destruct (Ascii.eqb c "+"), (Ascii.eqb c "-"); cbn [orb]; intros H;
    try reflexivity;
    apply (f_equal String.length) in H; cbn [String.length] in H; lia.
Qed.

Lemma signed_numeral_parses (t : string) (base : Z) (neg0 : bool) (p q : Z) (sign : ascii) :
  supportedBase base ->
  plainOnly t = true -> unsignedPart t = t ->
  parseRational t base = inr (neg0, p, q) ->
  sign = "-"%char \/ sign = "+"%char ->
  neg0 = false
  /\ parseRational (String sign t) base = inr (Ascii.eqb sign "-", p, q).
Proof.
  intros Hb Hplain Hun Hp Hsign.
  pose proof (parseRational_expected t base Hb) as HG. rewrite Hp in HG.
  unfold expectedRational in HG.
  rewrite (normalized_plain t Hplain), Hun, (unsignedPart_fixed t Hun) in HG.
  destruct ((base =? 10) && (String.length t =? 0)%nat); [discriminate|].
  destruct (expectedMagnitude t base) as [[p' q']|] eqn:EM; [|discriminate].
  injection HG as <- <- <-.
  split; [reflexivity|].
  assert (Hplain' : plainOnly (String sign t) = true).
  { cbn [plainOnly]. rewrite Hplain. destruct Hsign as [-> | ->]; reflexivity. }
  assert (Hexp : expectedRational (String sign t) base = Some (Ascii.eqb sign "-", p', q')).
  { unfold expectedRational. rewrite (normalized_plain _ Hplain').
    cbn [String.length Nat.eqb]. rewrite andb_false_r.
    assert (Eu : unsignedPart (String sign t) = t)
      by (destruct Hsign as [-> | ->]; reflexivity).
    rewrite Eu, EM. reflexivity. }
  pose proof (parseRational_expected (String sign t) base Hb) as HG'.
  destruct (parseRational (String sign t) base) as [e|r]; congruence.
Qed.

(** X16. Sign in front of a numeral. Take a text without white space, ['_']
    or sign that converts to [sc] without overflow. With ['+'] in front it
    converts to the same [sc]. With ['-'] in front, in a signed format, it
    converts to [- sc], again without overflow: rounding is the same on both
    sides of zero. *)
Theorem sign_prefix_symmetry
    (t : string) (base : Z) (signed : bool) (m n sc : Z) :
  supportedBase base ->
  plainOnly t = true -> unsignedPart t = t ->
  parseInputToScaled t base signed m n = Scaled sc false ->
  parseInputToScaled (String "+" t) base signed m n = Scaled sc false
  /\ (signed = true ->
      parseInputToScaled (String "-" t) base signed m n = Scaled (- sc) false).
Proof.
  intros Hb Hplain Hun Hres.
  assert (Hf : validFormat signed m n)
    by (apply (proj2 (result_is_representable_lemma t base signed m n) sc false Hres)).
  assert (HN : 1 <= totalBits signed m n) by apply Hf.
  assert (Hn : 0 <= n) by apply Hf.
  destruct (parseRational t base) as [e|[[neg0 p] q]] eqn:Hp.
  { unfold parseInputToScaled in Hres. rewrite (validFormat_gate _ _ _ Hf), Hp in Hres.
    discriminate Hres. }
  destruct (signed_numeral_parses t base neg0 p q "+" Hb Hplain Hun Hp (or_intror eq_refl))
    as [-> Hplus].
  destruct (signed_numeral_parses t base false p q "-" Hb Hplain Hun Hp (or_introl eq_refl))
    as [_ Hminus].
  change (Ascii.eqb "+" "-") with false in Hplus.
  change (Ascii.eqb "-" "-") with true in Hminus.
  rewrite (parseInputToScaled_parsed t base signed m n false p q Hf Hp) in Hres.
  rewrite (parseInputToScaled_parsed _ base signed m n false p q Hf Hplus).
  rewrite (parseInputToScaled_parsed _ base signed m n true p q Hf Hminus).
  split; [exact Hres|].
  intros ->.
  destruct (parseRational_sound t base false p q Hb Hp) as [Hp0 Hq0].
  pose proof (scaledAbsOf_nonneg p q n Hp0 Hq0 Hn) as Ha.
  unfold candidateScaled in *.
  set (a := scaledAbsOf p q n) in *.
  set (N := totalBits true m n) in *.
  pose proof (pow2_N_pos N HN) as Hpp.
  unfold saturate in Hres |- *.
  unfold rangeMin, rangeMax in *. rewrite !shiftl_1_pow2 in *.
  destruct (Z.ltb_spec a (- 2 ^ (N - 1))), (Z.ltb_spec (2 ^ (N - 1) - 1) a);
    cbn [orb] in Hres; try discriminate Hres.
  injection Hres as <-.
  replace (- a <? - 2 ^ (N - 1)) with false by (symmetry; apply Z.ltb_ge; lia).
  replace (2 ^ (N - 1) - 1 <? - a) with false by (symmetry; apply Z.ltb_ge; lia).
  reflexivity.
Qed.

Lemma sign_prefix_symmetry_witness :
  parseInputToScaled "+2.5" 10 true 3 0 = Scaled 3 false
  /\ parseInputToScaled "-2.5" 10 true 3 0 = Scaled (- 3) false.
Proof.
  destruct (sign_prefix_symmetry "2.5" 10 true 3 0 3) as [Hplus Hminus].
  - right; left; reflexivity.
  - reflexivity.
  - reflexivity.
  - reflexivity.
  - split; [exact Hplus | exact (Hminus eq_refl)].
Defined.

(** ** The second implementation: hexadecimal text of a bit array *)

Lemma not_whitespace_facts (c : ascii) :
  JS.isWhiteSpace c = false ->
  isLineTerminator c = false /\ Ascii.eqb c " " = false.
Proof.
  destruct c as [[] [] [] [] [] [] [] []]; cbv; intros H;
    try discriminate H; split; reflexivity.
Qed.

Lemma plainOnly_cons (c : ascii) (s : string) :
  plainOnly (String c s) = true ->
  JS.isWhiteSpace c = false /\ isLineTerminator c = false
  /\ Ascii.eqb c " " = false /\ plainOnly s = true.
Proof.
  cbn [plainOnly]. intros H.
  apply andb_true_iff in H. destruct H as [H Hs].
  apply andb_true_iff in H. destruct H as [Hw _].
  apply negb_true_iff in Hw.
  destruct (not_whitespace_facts c Hw) as [Hl Hsp].
  repeat split; assumption.
Qed.

Ltac split_plain H :=
  repeat match type of H with
         | plainOnly (String ?c _) = true =>
             let W := fresh "W" in let L := fresh "L" in let S := fresh "S" in
             apply plainOnly_cons in H; destruct H as (W & L & S & H)
         end.

(** On a text without white space, the replacement of the grouping regular
    expression followed by [trim] is the grouping in fours from the left. *)
Lemma trim_replaceEvery4_plain (s : string) :
  plainOnly s = true -> JS.trim (replaceEvery4 s) = groupFromMsb s.
Proof.
  unfold JS.trim.
  induction s as [| a | a b | a b c | a b c d rest IH] using string_ind4; intros H.
  - reflexivity.
  - cbn [replaceEvery4 groupFromMsb].
    pose proof (trimEnd_plain _ H) as E. split_plain H.
    cbn [JS.trimStart]. rewrite W. exact E.
  - cbn [replaceEvery4 groupFromMsb].
    pose proof (trimEnd_plain _ H) as E. split_plain H.
    cbn [JS.trimStart]. rewrite W. exact E.
  - cbn [replaceEvery4 groupFromMsb].
    pose proof (trimEnd_plain _ H) as E. split_plain H.
    cbn [JS.trimStart]. rewrite W. exact E.
  - split_plain H.
    cbn [replaceEvery4]. rewrite L, L0, L1, L2. cbn [orb].
    cbn [JS.trimStart]. rewrite W.
    rewrite !trimEnd_cons_plain by assumption.
    specialize (IH H).
    assert (Hstart : JS.trimStart (replaceEvery4 rest) = replaceEvery4 rest).
    { destruct rest as [|e r]; [reflexivity|].
      destruct (replaceEvery4_head e r) as [r' ->].
      apply plainOnly_cons in H. destruct H as (We & _).
      cbn [JS.trimStart]. rewrite We. reflexivity. }
    rewrite Hstart in IH.
    change (JS.trimEnd (String " " (replaceEvery4 rest)))
      with (match JS.trimEnd (replaceEvery4 rest) with
            | EmptyString => EmptyString
            | r => String " " r
            end).
    rewrite IH.
    destruct rest as [|e r]; [reflexivity|].
    rewrite groupFromMsb_step.
    destruct (groupFromMsb (String e r)) eqn:G.
    + apply groupFromMsb_empty in G. discriminate G.
    + reflexivity.
Qed.

Lemma rmall_space_plain (s : string) : plainOnly s = true -> rmall s " " = s.
Proof.
  induction s as [|c s IH]; [reflexivity|].
  intros H. apply plainOnly_cons in H. destruct H as (_ & _ & S & Hs).
  cbn [rmall]. rewrite S, IH by exact Hs. reflexivity.
Qed.

Lemma rmall_groupFromMsb_plain (s : string) :
  plainOnly s = true -> rmall (groupFromMsb s) " " = s.
Proof.
  induction s as [| a | a b | a b c | a b c d rest IH] using string_ind4; intros H;
    try (cbn [groupFromMsb]; apply rmall_space_plain; exact H).
  pose proof H as Hall. split_plain H.
  destruct rest as [|e r]; [cbn [groupFromMsb]; apply rmall_space_plain; exact Hall|].
  rewrite groupFromMsb_step.
  cbn [rmall]. rewrite S, S0, S1, S2.
  change (Ascii.eqb " " " ") with true. cbv iota.
  rewrite (IH H). reflexivity.
Qed.

Lemma nibble_digit (a b c d : bool) :
  exists ch,
    JS.toUpperCase (JS.toStringRadix (nibbleOf a b c d) 16) = String ch EmptyString
    /\ digitOr0 ch = 8 * Z.b2z a + 4 * Z.b2z b + 2 * Z.b2z c + Z.b2z d
    /\ upperHexOnly (String ch EmptyString) = true
    /\ plainOnly (String ch EmptyString) = true.
Proof. destruct a, b, c, d; eexists; repeat split; reflexivity. Qed.

Lemma hexLoop_spec (k : nat) :
  forall arr, List.length arr = (4 * k)%nat ->
    String.length (hexLoop arr) = k
    /\ upperHexOnly (hexLoop arr) = true
    /\ plainOnly (hexLoop arr) = true
    /\ forall acc, radixValueFrom 16 (hexLoop arr) acc = boolsValueFrom arr acc.
Proof.
  induction k as [|k IH]; intros arr Hlen.
  - destruct arr; [|discriminate Hlen]. repeat split.
  - destruct arr as [|a [|b [|c [|d rest]]]]; try (cbn [List.length] in Hlen; lia).
    assert (Hr : List.length rest = (4 * k)%nat) by (cbn [List.length] in Hlen; lia).
    destruct (IH rest Hr) as (I1 & I2 & I3 & I4).
    destruct (nibble_digit a b c d) as (ch & E & V & U & P).
    cbn [hexLoop]. rewrite E.
    cbn [append String.length upperHexOnly plainOnly radixValueFrom boolsValueFrom] in *.
    rewrite I1, I2, I3.
    split; [reflexivity|].
    split; [rewrite andb_true_r in U; rewrite U; reflexivity|].
    split; [rewrite andb_true_r in P; rewrite P; reflexivity|].
    intros acc. rewrite I4, V. f_equal. lia.
Qed.

Lemma pad_arith (len : nat) :
  (((4 - len mod 4) mod 4 + len) = 4 * ((len + 3) / 4))%nat.
Proof.
  pose proof (Nat.div_mod_eq len 4) as E.
  pose proof (Nat.mod_upper_bound len 4 ltac:(lia)) as Hm.
  destruct (len mod 4)%nat as [|[|[|[|r]]]] eqn:Er; try lia.
  - rewrite <- (Nat.div_unique (len + 3) 4 (len / 4) 3) by lia.
    change ((4 - 0) mod 4)%nat with 0%nat. lia.
  - rewrite <- (Nat.div_unique (len + 3) 4 (len / 4 + 1) 0) by lia.
    change ((4 - 1) mod 4)%nat with 3%nat. lia.
  - rewrite <- (Nat.div_unique (len + 3) 4 (len / 4 + 1) 1) by lia.
    change ((4 - 2) mod 4)%nat with 2%nat. lia.
  - rewrite <- (Nat.div_unique (len + 3) 4 (len / 4 + 1) 2) by lia.
    change ((4 - 3) mod 4)%nat with 1%nat. lia.
Qed.

Lemma boolsValueFrom_pad (pad : nat) (bits : list bool) :
  boolsValueFrom (repeat false pad ++ bits) 0 = boolsValueFrom bits 0.
Proof. induction pad as [|pad IH]; [reflexivity | exact IH]. Qed.

(** X17. [bitsToHex] of the second implementation: without its spaces the
    result has [ceil(length / 4)] characters, all among [0-9A-F], and reads
    in base 16 as the number the bits stand for; the spaces split it in
    groups of four from the left, none at either end. The empty array gives
    the empty text. *)
Theorem bitsToHex_value (bits : list bool) :
  let out := bitsToHex bits in
  let hex := rmall out " " in
  String.length hex = ((List.length bits + 3) / 4)%nat
  /\ upperHexOnly hex = true
  /\ radixValue 16 hex = boolsValue bits
  /\ out = groupFromMsb hex.
Proof.
  cbv zeta. unfold bitsToHex.
  set (pad := ((4 - List.length bits mod 4) mod 4)%nat).
  set (arr := (repeat false pad ++ bits)%list).
  assert (Hlen : List.length arr = (4 * ((List.length bits + 3) / 4))%nat).
  { unfold arr. rewrite List.length_app, repeat_length. apply pad_arith. }
  destruct (hexLoop_spec _ arr Hlen) as (H1 & H2 & H3 & H4).
  rewrite (trim_replaceEvery4_plain _ H3), (rmall_groupFromMsb_plain _ H3).
  split; [exact H1|]. split; [exact H2|]. split; [|reflexivity].
  unfold radixValue, boolsValue. rewrite H4. apply boolsValueFrom_pad.
Qed.

(** ** The second implementation: binary text of a bit array *)

Lemma bitChar_facts (b : bool) :
  Ascii.eqb (bitChar b) "_" = false /\ Ascii.eqb (bitChar b) "." = false.
Proof. destruct b; split; reflexivity. Qed.

Lemma binWithPointLoop_digits (m n : Z) (signed group4 : bool) (bits : list bool) :
  forall i,
    rmall (rmall (binWithPointLoop bits i m n signed group4) "_") "." = bitsText bits.
Proof.
  induction bits as [|b rest IH]; intros i; [reflexivity|].
  cbn [binWithPointLoop bitsText]. cbv zeta.
  destruct (bitChar_facts b) as [E1 E2].
  cbn [rmall]. rewrite E1. cbn [rmall]. rewrite E2. f_equal.
  rewrite !rmall_app, IH.
  match goal with |- context [if ?c then "." else ""] => destruct c end;
    match goal with |- context [if ?c then "_" else ""] => destruct c end;
    reflexivity.
Qed.

Lemma binWithPointLoop_plain (m n : Z) (signed : bool) (bits : list bool) :
  forall i,
    let k := (if signed then m else m - 1) - i in
    binWithPointLoop bits i m n signed false
    = if (0 <? n) && (0 <=? k) && (k <? Z.of_nat (List.length bits))
      then JS.sliceTo (Z.to_nat k + 1) (bitsText bits)
             ++ "." ++ JS.sliceFrom (Z.to_nat k + 1) (bitsText bits)
      else bitsText bits.
Proof.
  induction bits as [|b rest IH]; intros i k.
  - cbn [binWithPointLoop bitsText List.length Z.of_nat].
    destruct ((0 <? n) && (0 <=? k)) eqn:E; cbn [andb]; [|reflexivity].
    apply andb_true_iff in E. destruct E as [_ E]. apply Z.leb_le in E.
    replace (k <? 0) with false by (symmetry; apply Z.ltb_ge; lia). reflexivity.
  - cbn [binWithPointLoop bitsText]. cbv zeta. cbn [andb].
    set (dotIndex := if signed then m else m - 1) in *.
    specialize (IH (i + 1)). cbv zeta in IH. rewrite IH. clear IH.
    change (List.length (b :: rest)) with (S (List.length rest)).
    rewrite Nat2Z.inj_succ.
    destruct (Z.ltb_spec 0 n) as [Hn|Hn]; cbn [andb];
      [|rewrite andb_false_r; reflexivity].
    destruct (Z.eqb_spec i dotIndex) as [Ei|Ei].
    + assert (Ek : k = 0) by (unfold k; lia). rewrite Ek.
      replace (0 <=? dotIndex - (i + 1)) with false by (symmetry; apply Z.leb_gt; lia).
      cbn [andb Z.leb Z.compare].
      replace (0 <? Z.succ (Z.of_nat (List.length rest))) with true
        by (symmetry; apply Z.ltb_lt; lia).
      reflexivity.
    + cbn [andb append].
      replace (dotIndex - (i + 1)) with (k - 1) by (unfold k; lia).
      destruct (Z.leb_spec 0 k) as [H0|H0].
      * assert (1 <= k) by (unfold k in *; lia).
        replace (0 <=? k - 1) with true by (symmetry; apply Z.leb_le; lia).
        cbn [andb].
        destruct (Z.ltb_spec (k - 1) (Z.of_nat (List.length rest))) as [H1|H1].
        -- replace (k <? Z.succ (Z.of_nat (List.length rest))) with true
             by (symmetry; apply Z.ltb_lt; lia).
           replace (Z.to_nat k + 1)%nat with (S (Z.to_nat (k - 1) + 1))%nat by lia.
           reflexivity.
        -- replace (k <? Z.succ (Z.of_nat (List.length rest))) with false
             by (symmetry; apply Z.ltb_ge; lia).
           reflexivity.
      * replace (0 <=? k - 1) with false by (symmetry; apply Z.leb_gt; lia).
        reflexivity.
Qed.

(** X18. [bitsToBinWithPoint] of the second implementation. Whatever the
    flags, the result is the bits in their order with at most points and
    ['_'] added. Without grouping it is the bits with one point after the
    bit of index [m] (signed) or [m - 1] (unsigned), provided [n > 0] and
    that index exists; so an unsigned format without integer bits gets no
    point at all, where the first implementation writes ["0."] before the
    bits. *)
Theorem bitsToBinWithPoint_text (bits : list bool) (m n : Z) (signed group4 : bool) :
  let out := bitsToBinWithPoint bits m n signed group4 in
  let text := bitsText bits in
  let dotIndex := if signed then m else m - 1 in
  rmall (rmall out "_") "." = text
  /\ (group4 = false ->
      out = if (0 <? n) && (0 <=? dotIndex) && (dotIndex <? Z.of_nat (List.length bits))
            then JS.sliceTo (Z.to_nat dotIndex + 1) text
                   ++ "." ++ JS.sliceFrom (Z.to_nat dotIndex + 1) text
            else text)
  /\ (group4 = false -> signed = false -> m = 0 -> out = text).
Proof.
  cbv zeta. unfold bitsToBinWithPoint.
  split; [apply binWithPointLoop_digits|].
  assert (Hplain : group4 = false ->
    binWithPointLoop bits 0 m n signed group4
    = if (0 <? n) && (0 <=? (if signed then m else m - 1))
         && ((if signed then m else m - 1) <? Z.of_nat (List.length bits))
      then JS.sliceTo (Z.to_nat (if signed then m else m - 1) + 1) (bitsText bits)
             ++ "." ++ JS.sliceFrom (Z.to_nat (if signed then m else m - 1) + 1) (bitsText bits)
      else bitsText bits).
  { intros ->. pose proof (binWithPointLoop_plain m n signed bits 0) as H.
    cbv zeta in H. rewrite Z.sub_0_r in H. exact H. }
  split; [exact Hplain|].
  intros Hg -> ->. rewrite (Hplain Hg).
  change (0 <=? 0 - 1) with false. rewrite andb_false_r. reflexivity.
Qed.

Lemma bitsToBinWithPoint_text_witness :
  bitsToBinWithPoint [true; false; true] 0 3 false false = "101"
  /\ bitsToBinWithPoint [true; true; false; true; false] 1 3 true false = "11.010".
Proof.
  split; [|reflexivity].
  apply (bitsToBinWithPoint_text [true; false; true] 0 3 false false); reflexivity.
Defined.

(** ** The displayed decimal is a fixed point of the conversion *)

(** X19. Whatever text was converted, in whatever base: if the conversion
    gave [sc] (saturated or not), then the decimal text of [sc], written
    with at least as many digits as the format has fractional bits and
    converted in base 10 for the same format, gives [sc] again, now without
    overflow. *)
Theorem displayed_decimal_is_fixed_point
    (valueStr : string) (base : Z) (signed : bool) (m n p sc : Z) (ov : bool) :
  parseInputToScaled valueStr base signed m n = Scaled sc ov ->
  n = 0 \/ n <= p ->
  parseInputToScaled (scaledToDecimalString sc n p) 10 signed m n = Scaled sc false.
Proof.
  intros Hres Hnp.
  destruct (proj2 (result_is_representable_lemma valueStr base signed m n) sc ov Hres)
    as (Hf & Hr & _).
  assert (Hn : 0 <= n) by apply Hf.
  destruct (decimal_text_parses sc n p Hn Hnp) as (P & Q & Hparse & HP & HQ & HE).
  rewrite (parseInputToScaled_parsed _ 10 signed m n _ P Q Hf Hparse).
  unfold candidateScaled.
  rewrite (scaledAbsOf_exact P Q n (Z.abs sc) HP HQ Hn HE).
  replace (if sc <? 0 then - Z.abs sc else Z.abs sc) with sc
    by (destruct (Z.ltb_spec sc 0); lia).
  apply (saturate_cases signed (totalBits signed m n) sc); [apply Hf | exact Hr].
Qed.

Lemma displayed_decimal_is_fixed_point_witness :
  parseInputToScaled "FF.8" 16 true 3 5 = Scaled 255 true
  /\ scaledToDecimalString 255 5 6 = "7.968750"
  /\ parseInputToScaled (scaledToDecimalString 255 5 6) 10 true 3 5 = Scaled 255 false.
Proof.
  split; [reflexivity|]. split; [reflexivity|].
  apply (displayed_decimal_is_fixed_point "FF.8" 16 true 3 5 6 255 true);
    [reflexivity | right; lia].
Defined.
